(** * upper-io-db: fingerprint cells, the MS SQL [Insert] and the
      PostgreSQL session hooks

    A shallow embedding of
    - [internal/sqladapter/exql/hash.go]   (module [Exql]),
    - [postgresql/database.go]             (module [Postgresql]),
    - [mssql/collection.go]                (module [Mssql]),
    together with the properties of these functions that the
    specification relies on. *)

From Stdlib Require Import String Ascii List ZArith Bool Lia.
From stdpp Require Import base option list strings gmap.

Import ListNotations.
Local Open Scope string_scope.

(** ** Go values shared by the three packages *)

(** A Go [interface{}] is either the untyped [nil] or a dynamic value. *)
Inductive iface (V : Type) : Type :=
| inil : iface V
| dyn : V -> iface V.
Arguments inil {V}.
Arguments dyn {V} _.

(** Outcome of a Go call that may panic. *)
Inductive outcome (A : Type) : Type :=
| Done : A -> outcome A
| Panic : outcome A.
Arguments Done {A} _.
Arguments Panic {A}.

(** * internal/sqladapter/exql/hash.go *)
Module Exql.

(** [type hash struct { v atomic.Value }].  An [atomic.Value] is empty
    ([Load] returns the nil interface) until the first [Store]; every
    [Store] of this file stores a [string]. *)
Record hash : Type := mkHash { v : option string }.

(** The zero value of the struct. *)
Definition zero : hash := mkHash None.

(** [func (h *hash) Reset()]: [h.v.Store("")]. *)
Definition Reset (h : hash) : hash := mkHash (Some "").

Section Hash.
(** Dynamic values handed to [Hash], with the two library calls the
    method makes on them: [reflect.TypeOf(i).String()] and
    [cache.Hash(i)] (package [internal/cache]). *)
Variable V : Type.
Variable TypeOf : V -> string.
Variable cache_Hash : V -> string.

(** The string built on line 19. *)
Definition fingerprint (x : V) : string :=
  TypeOf x +:+ ":" +:+ cache_Hash x.

(** [func (h *hash) Hash(i interface{}) string], returning the string
    and the cell after the call.  [reflect.TypeOf(nil)] is the nil
    [Type], on which [String()] panics, before anything is stored. *)
Definition Hash (h : hash) (i : iface V) : outcome (string * hash) :=
  match v h with
  | Some r =>
      if negb (String.eqb r "") then Done (r, h)
      else
        match i with
        | inil => Panic
        | dyn x => let s := fingerprint x in Done (s, mkHash (Some s))
        end
  | None =>
      match i with
      | inil => Panic
      | dyn x => let s := fingerprint x in Done (s, mkHash (Some s))
      end
  end.

(** A cell that holds no fingerprint: never stored to, or reset. *)
Definition vacant (h : hash) : Prop := v h = None \/ v h = Some "".

(** A cell that has only ever served the fragment content [x]. *)
Definition serves (h : hash) (x : V) : Prop :=
  vacant h \/ v h = Some (fingerprint x).

End Hash.

Arguments fingerprint {V} TypeOf cache_Hash x.
Arguments Hash {V} TypeOf cache_Hash h i.
Arguments serves {V} TypeOf cache_Hash h x.

(** A client that calls [Hash] on one cell with each argument of [js] in
    turn and collects the strings returned. *)
Fixpoint hash_all {V : Type} (TypeOf cache_Hash : V -> string)
    (h : hash) (js : list (iface V)) : outcome (list string * hash) :=
  match js with
  | [] => Done ([], h)
  | j :: js' =>
      match Hash TypeOf cache_Hash h j with
      | Panic => Panic
      | Done (s, h') =>
          match hash_all TypeOf cache_Hash h' js' with
          | Panic => Panic
          | Done (ss, h'') => Done (s :: ss, h'')
          end
      end
  end.

(** [s] has no [":"] in it, as the decimal strings of [cache.Hash]. *)
Fixpoint colon_free (s : string) : bool :=
  match s with
  | EmptyString => true
  | String c s' => negb (Ascii.eqb c ":") && colon_free s'
  end.

End Exql.

(** * postgresql/database.go *)
Module Postgresql.

(** [strings.Contains(s, substr)]: [substr] occurs in [s] at some offset. *)
Fixpoint Contains (s substr : string) : bool :=
  String.prefix substr s ||
  match s with
  | EmptyString => false
  | String _ s' => Contains s' substr
  end.

(** [sub] occurs somewhere in [s]. *)
Definition occurs (sub s : string) : Prop :=
  exists pre post, s = pre +:+ sub +:+ post.

(** The messages by which the server reports that it is out of
    connections. *)
Definition out_of_connections (s : string) : Prop :=
  occurs "too many clients" s \/
  occurs "remaining connection slots are reserved" s \/
  occurs "too many open" s.

Section Err.
(** Non-nil Go errors, their [Error()] text and the exported
    [db.ErrTooManyClients] of the root package. *)
Variable E : Type.
Variable Error : E -> string.
Variable ErrTooManyClients : E.

(** [func (d *database) Err(err error) error]. *)
Definition Err (err : iface E) : iface E :=
  match err with
  | dyn e =>
      let s := Error e in
      if Contains s "too many clients"
         || Contains s "remaining connection slots are reserved"
         || Contains s "too many open"
      then dyn ErrTooManyClients
      else err
  | inil => err
  end.
End Err.

Arguments Err {E} Error ErrTooManyClients err.

(** Addresses of Go variables. *)
Definition loc := positive.

(** A pointer either refers to a variable of the caller or to the
    variable [v] that the type switch declares for one iteration, which
    starts as a copy of the element. *)
Inductive ptr (A : Type) : Type :=
| At : loc -> ptr A
| Local : A -> ptr A.
Arguments At {A} _.
Arguments Local {A} _.

Section Values.
(** [X]: values of the kinds the first four cases of the type switch
    leave alone, apart from the five pointer types spelled out below;
    [F]: [float64]; [J]: [interface{}] values inside a
    map; [W]: implementations of [sqlbuilder.ValueWrapper] that no
    earlier case matched; [O]: every other dynamic type. *)
Variables X F J W O : Type.

(** The dynamic values an element of [values] can hold, by the case of
    the switch on lines 158-195 that they reach. *)
Inductive value : Type :=
| Nil
| HandledByPq (x : X)
| PInt64Array (p : ptr (list Z))
| PStringArray (p : ptr (list string))
| PFloat64Array (p : ptr (list F))
| PBoolArray (p : ptr (list bool))
| PJSONBMap (p : ptr (gmap string J))
| PtrInt64s (p : loc)
| PtrStrings (p : loc)
| PtrFloat64s (p : loc)
| PtrBools (p : loc)
| PtrMap (p : loc)
| Int64s (s : list Z)
| Strings (s : list string)
| Float64s (s : list F)
| Bools (s : list bool)
| Map (m : gmap string J)
| Wrapper (w : W)
| Other (o : O).

(** [v.WrapValue(v)] and [autoWrap(reflect.ValueOf(x), x)]. *)
Variable WrapValue : W -> value.
Variable autoWrap : value -> value.

(** One iteration of the loop: the value assigned to [values[i]], or
    [None] when the case has an empty body. *)
Definition convert (x : value) : option value :=
  match x with
  | HandledByPq _ => None
  | PInt64Array _ | PStringArray _ | PFloat64Array _ | PBoolArray _
  | PJSONBMap _ => None
  | PtrInt64s p => Some (PInt64Array (At p))
  | PtrStrings p => Some (PStringArray (At p))
  | PtrFloat64s p => Some (PFloat64Array (At p))
  | PtrBools p => Some (PBoolArray (At p))
  | PtrMap p => Some (PJSONBMap (At p))
  | Int64s s => Some (PInt64Array (Local s))
  | Strings s => Some (PStringArray (Local s))
  | Float64s s => Some (PFloat64Array (Local s))
  | Bools s => Some (PBoolArray (Local s))
  | Map m => Some (PJSONBMap (Local m))
  | Wrapper w => Some (WrapValue w)
  | Nil | Other _ => Some (autoWrap x)
  end.

(** The element after its iteration. *)
Definition converted (x : value) : value := default x (convert x).

(** A slice header: the backing array and the window onto it. *)
Record slice : Type := mkSlice { array : loc; off : nat; len : nat }.

(** The backing arrays of [[]interface{}] slices. *)
Local Abbreviation store := (gmap loc (list value)).

(** The elements seen through a slice. *)
Definition elems (m : store) (s : slice) : list value :=
  take (len s) (drop (off s) (default [] (m !! array s))).

(** [values[i] = x]. *)
Definition assign (m : store) (s : slice) (i : nat) (x : value) : store :=
  match m !! array s with
  | Some a => <[array s := <[(off s + i)%nat := x]> a]> m
  | None => m
  end.

(** The body of [for i := range values]. *)
Definition step (s : slice) (m : store) (i : nat) : store :=
  match elems m s !! i with
  | Some x =>
      match convert x with
      | Some y => assign m s i y
      | None => m
      end
  | None => m
  end.

(** [func (d *database) ConvertValues(values []interface{}) []interface{}]:
    the store after the loop and the slice returned. *)
Definition ConvertValues (m : store) (values : slice) : store * slice :=
  (fold_left (step values) (seq 0 (len values)) m, values).

End Values.

Arguments Nil {X F J W O}.
Arguments HandledByPq {X F J W O} _.
Arguments PInt64Array {X F J W O} _.
Arguments PStringArray {X F J W O} _.
Arguments PFloat64Array {X F J W O} _.
Arguments PBoolArray {X F J W O} _.
Arguments PJSONBMap {X F J W O} _.
Arguments PtrInt64s {X F J W O} _.
Arguments PtrStrings {X F J W O} _.
Arguments PtrFloat64s {X F J W O} _.
Arguments PtrBools {X F J W O} _.
Arguments PtrMap {X F J W O} _.
Arguments Int64s {X F J W O} _.
Arguments Strings {X F J W O} _.
Arguments Float64s {X F J W O} _.
Arguments Bools {X F J W O} _.
Arguments Map {X F J W O} _.
Arguments Wrapper {X F J W O} _.
Arguments Other {X F J W O} _.
Arguments convert {X F J W O} WrapValue autoWrap x.
Arguments converted {X F J W O} WrapValue autoWrap x.
Arguments elems {X F J W O} m s.
Arguments assign {X F J W O} m s i x.
Arguments step {X F J W O} WrapValue autoWrap s m i.
Arguments ConvertValues {X F J W O} WrapValue autoWrap m values.

(** The kinds that the first four cases of the switch leave alone. *)
Definition handled {X F J W O : Type} (x : value X F J W O) : bool :=
  match x with
  | HandledByPq _ | PInt64Array _ | PStringArray _ | PFloat64Array _
  | PBoolArray _ | PJSONBMap _ => true
  | _ => false
  end.

(** The kinds that reach neither the [ValueWrapper] case nor the default
    one. *)
Definition builtin {X F J W O : Type} (x : value X F J W O) : bool :=
  match x with
  | Nil | Wrapper _ | Other _ => false
  | _ => true
  end.

(** [strings.Split(s, sep)] for a separator of one byte, as in the only
    call of this file: the pieces between the separators, one more than
    there are separators. *)
Fixpoint Split (s : string) (sep : ascii) : list string :=
  match s with
  | EmptyString => [EmptyString]
  | String c s' =>
      if Ascii.eqb c sep then EmptyString :: Split s' sep
      else
        match Split s' sep with
        | chunk :: chunks => String c chunk :: chunks
        | [] => [String c EmptyString]
        end
  end.

(** [strings.Join(elems, sep)]. *)
Fixpoint Join (elems : list string) (sep : string) : string :=
  match elems with
  | [] => EmptyString
  | e :: elems' =>
      match elems' with
      | [] => e
      | _ :: _ => e +:+ sep +:+ Join elems' sep
      end
  end.

(** No ["."] in [s]. *)
Fixpoint dot_free (s : string) : bool :=
  match s with
  | EmptyString => true
  | String c s' => negb (Ascii.eqb c ".") && dot_free s'
  end.

(** [append] on a slice that may be nil. *)
Definition append {A : Type} (s : option (list A)) (x : A) : option (list A) :=
  Some (default [] s ++ [x])%list.

Section Session.
(** [E]: non-nil errors; [Quote]: [fmt.Sprintf("%q", _)]; [Name]:
    [d.BaseDatabase.Name()]. *)
Variable E : Type.
Variable Quote : string -> string.
Variable Name : string.
Variable ErrCollectionDoesNotExist : E.

(** [func quotedTableName(s string) string]. *)
Definition quotedTableName (s : string) : string :=
  Join (Quote <$> Split s ".") ".".

(** What [Select] is given: a column name or a [db.Raw] expression. *)
Inductive selected : Type :=
| Col (name : string)
| Raw (sql : string).

(** The query built by [d.Select(..).From(..).Where(..).OrderBy(..)]. *)
Record selector : Type := mkSelector {
  columns : list selected;
  from : list string;
  where_ : string;
  where_args : list string;
  orderBy : list string
}.

(** Modelled from the spec: the row iterator that a query returns
    ([lib/sqlbuilder], not among these sources), for a query that scans
    one string per row.  It is given by what it will produce: for every
    row still to come what [Scan] leaves in its destination and the
    error it returns, then what [Err] reports, and whether [Close] was
    called. *)
Record iterator : Type := mkIterator {
  rows : list (string * iface E);
  err : iface E;
  closed : bool
}.

Definition Close (iter : iterator) : iterator :=
  mkIterator (rows iter) (err iter) true.

(** [q.Iterator()] on this session. *)
Variable Iterator : selector -> iterator.

(** The loops of lines 102-108 and 326-332: [for iter.Next()], scan into
    a string, [return nil, err] when that fails, else append. *)
Fixpoint scan_all (rows : list (string * iface E)) (acc : option (list string))
    : option (list string) * iface E :=
  match rows with
  | [] => (acc, inil)
  | (_, dyn e) :: _ => (None, dyn e)
  | (x, inil) :: rows' => scan_all rows' (append acc x)
  end.

Definition collections_query : selector :=
  mkSelector [Col "table_name"] ["information_schema.tables"]
    "table_schema = ?" ["public"] [].

(** [func (d *database) Collections() (collections []string, err error)]:
    the result and the iterator as the deferred [Close] leaves it. *)
Definition Collections : option (list string) * iface E * iterator :=
  let iter := Iterator collections_query in
  (scan_all (rows iter) None, Close iter).

Definition primary_keys_query (tableName : string) : selector :=
  mkSelector [Col "pg_attribute.attname AS pkey"]
    ["pg_index"; "pg_class"; "pg_attribute"]
    ("
			pg_class.oid = '" +:+ quotedTableName tableName +:+ "'::regclass
			AND indrelid = pg_class.oid
			AND pg_attribute.attrelid = pg_class.oid
			AND pg_attribute.attnum = ANY(pg_index.indkey)
			AND indisprimary
		")
    [] ["pkey"].

(** [func (d *database) PrimaryKeys(tableName string) ([]string, error)]. *)
Definition PrimaryKeys (tableName : string)
    : option (list string) * iface E * iterator :=
  let iter := Iterator (primary_keys_query tableName) in
  (match scan_all (rows iter) (Some []) with
   | (_, dyn e) => (None, dyn e)
   | (pk, inil) =>
       match err iter with
       | dyn e => (None, dyn e)
       | inil => (pk, inil)
       end
   end, Close iter).

Definition table_exists_query (name : string) : selector :=
  mkSelector [Col "table_name"] ["information_schema.tables"]
    "table_catalog = ? AND table_name = ?" [Name; name] [].

(** [func (d *database) TableExists(name string) error]. *)
Definition TableExists (name : string) : iface E * iterator :=
  let iter := Iterator (table_exists_query name) in
  (match rows iter with
   | (_, dyn e) :: _ => dyn e
   | (_, inil) :: _ => inil
   | [] => dyn ErrCollectionDoesNotExist
   end, Close iter).

Definition lookup_name_query : selector :=
  mkSelector [Raw "CURRENT_DATABASE() AS name"] [] "" [] [].

(** [func (d *database) LookupName() (string, error)]. *)
Definition LookupName : string * iface E * iterator :=
  let iter := Iterator lookup_name_query in
  (match rows iter with
   | (name, err) :: _ => (name, err)
   | [] => ("", err iter)
   end, Close iter).

End Session.

Arguments rows {E} i.
Arguments err {E} i.
Arguments closed {E} i.
Arguments mkIterator {E} rows err closed.
Arguments Close {E} iter.
Arguments scan_all {E} rows acc.
Arguments Collections {E} Iterator.
Arguments PrimaryKeys {E} Quote Iterator tableName.
Arguments TableExists {E} Name ErrCollectionDoesNotExist Iterator name.
Arguments LookupName {E} Iterator.

End Postgresql.

(** * mssql/collection.go *)
Module Mssql.

Section Table.
(** [Item]: what callers insert; [V]: non-nil column values; [E]:
    non-nil errors; [Row]: [*sql.Row]; [World]: the state of everything
    behind the table (session, server, primary-key cache). *)
Variables Item V E Row World : Type.

(** [db.Cond], as [One] fills it: column name to value. *)
Local Abbreviation Cond := (gmap string (iface V)).

(** The [interface{}] that [Insert] returns: a plain value (possibly
    nil) or a [db.Cond]. *)
Inductive key : Type :=
| Plain (x : iface V)
| Compound (m : Cond).

(** The statement built by [InsertInto(..).Columns(..).Values(..)] and
    [Returning(..)]. *)
Record inserter : Type := mkInserter {
  into : string;
  columns : list string;
  values : list (iface V);
  returning : list string
}.

(** What [Insert] asks of its collaborators, with the answers. *)
Inductive event : Type :=
| EvPrimaryKeys (pKey : list string)
| EvQueryRow (query : string) (arg : string) (row : Row) (err : iface E)
| EvExec (query : string) (err : iface E)
| EvInsertExec (q : inserter) (err : iface E)
| EvInsertOne (q : inserter) (keyMap : Cond) (err : iface E).

(** The collaborators: [sqlbuilder.Map(item, nil)],
    [t.BaseCollection.PrimaryKeys()], [t.d.QueryRow], [row.Scan] into
    an [int], [t.d.Exec], [q.Exec()] and [q.Iterator().One(&keyMap)]. *)
Variable sqlbuilder_Map : Item -> list string * list (iface V) * iface E.
Variable PrimaryKeys : World -> list string * World.
Variable QueryRow : string -> string -> World -> Row * iface E * World.
Variable Scan : Row -> Z * iface E.
Variable Exec : string -> World -> iface E * World.
Variable inserter_Exec : inserter -> World -> iface E * World.
Variable inserter_One : inserter -> World -> Cond * iface E * World.

(** [type table struct]: the fields [Insert] reads or writes. *)
Record table : Type := mkTable {
  name : string;
  hasIdentityColumn : option bool
}.

(** Computations over the table and the backend that record what they
    asked. *)
Definition M (A : Type) : Type := table * World -> A * (table * World) * list event.

Definition ret {A} (a : A) : M A := fun w => (a, w, []).

Definition bind {A B} (m : M A) (k : A -> M B) : M B :=
  fun w =>
    let '(a, w1, l1) := m w in
    let '(b, w2, l2) := k a w1 in
    (b, w2, (l1 ++ l2)%list).

Notation "'do' x <- m ;; k" := (bind m (fun x => k))
  (at level 10, x pattern, m at level 99, k at level 200).

Definition call_PrimaryKeys : M (list string) :=
  fun '(t, s) => let '(pk, s') := PrimaryKeys s in (pk, (t, s'), [EvPrimaryKeys pk]).

Definition call_QueryRow (query arg : string) : M (Row * iface E) :=
  fun '(t, s) =>
    let '(row, err, s') := QueryRow query arg s in
    ((row, err), (t, s'), [EvQueryRow query arg row err]).

Definition call_Exec (query : string) : M (iface E) :=
  fun '(t, s) =>
    let '(err, s') := Exec query s in (err, (t, s'), [EvExec query err]).

Definition call_inserter_Exec (q : inserter) : M (iface E) :=
  fun '(t, s) =>
    let '(err, s') := inserter_Exec q s in (err, (t, s'), [EvInsertExec q err]).

Definition call_inserter_One (q : inserter) : M (Cond * iface E) :=
  fun '(t, s) =>
    let '(km, err, s') := inserter_One q s in
    ((km, err), (t, s'), [EvInsertOne q km err]).

Definition get_table : M table := fun '(t, s) => (t, (t, s), []).

Definition set_hasIdentityColumn (b : bool) : M unit :=
  fun '(t, s) => (tt, (mkTable (name t) (Some b), s), []).

(** Lines 74-81 for one [i]: [value] is [columnValues[i]], absent when
    [i] is out of range, where indexing panics. *)
Fixpoint scan_pKey (pKey : list string) (column : string)
    (value : option (iface V)) (hasKeys : bool) : outcome bool :=
  match pKey with
  | [] => Done hasKeys
  | k :: pKey' =>
      if String.eqb k column then
        match value with
        | None => Panic
        | Some (dyn _) => Done true
        | Some inil => scan_pKey pKey' column value hasKeys
        end
      else scan_pKey pKey' column value hasKeys
  end.

(** Lines 73-82, from index [i] on. *)
Fixpoint scan_columns (pKey : list string) (columnNames : list string)
    (columnValues : list (iface V)) (i : nat) (hasKeys : bool) : outcome bool :=
  match columnNames with
  | [] => Done hasKeys
  | c :: columnNames' =>
      match scan_pKey pKey c (columnValues !! i) hasKeys with
      | Panic => Panic
      | Done b => scan_columns pKey columnNames' columnValues (S i) b
      end
  end.

Definition identity_on (Name : string) : string :=
  "SET IDENTITY_INSERT " +:+ Name +:+ " ON".
Definition identity_off (Name : string) : string :=
  "SET IDENTITY_INSERT " +:+ Name +:+ " OFF".
Definition count_identity_columns : string :=
  "SELECT COUNT(1) FROM sys.identity_columns WHERE OBJECT_NAME(object_id) = ?".

(** Lines 85-104: [inl e] is [return nil, e]. *)
Definition detect_identity : M (E + bool) :=
  do t <- get_table ;;
  match hasIdentityColumn t with
  | Some b => ret (inr b)
  | None =>
      do (row, err) <- call_QueryRow count_identity_columns (name t) ;;
      match err with
      | dyn e => ret (inl e)
      | inil =>
          let '(identityColumns, err) := Scan row in
          match err with
          | dyn e => ret (inl e)
          | inil =>
              let b := (0 <? identityColumns)%Z in
              do _ <- set_hasIdentityColumn b ;;
              ret (inr b)
          end
      end
  end.

(** Lines 84-113: [inl e] is [return nil, e]; [inr d] continues, [d]
    telling whether line 111 deferred the restoring statement. *)
Definition explicit_keys (hasKeys : bool) : M (E + bool) :=
  if hasKeys then
    do r <- detect_identity ;;
    match r with
    | inl e => ret (inl e)
    | inr false => ret (inr false)
    | inr true =>
        do t <- get_table ;;
        do err <- call_Exec (identity_on (name t)) ;;
        match err with
        | dyn e => ret (inl e)
        | inil => ret (inr true)
        end
    end
  else ret (inr false).

(** Lines 135-140, reached with a non-empty [pKey] only. *)
Definition key_of (pKey : list string) (keyMap : Cond) : key :=
  if Nat.eqb (size keyMap) 1 then
    match pKey with
    | k :: _ => Plain (default inil (keyMap !! k))
    | [] => Plain inil
    end
  else Compound keyMap.

(** Lines 115-140. *)
Definition insert_row (pKey columnNames : list string)
    (columnValues : list (iface V)) : M (key * iface E) :=
  do t <- get_table ;;
  let q := mkInserter (name t) columnNames columnValues [] in
  if (length pKey <? 1)%nat then
    do err <- call_inserter_Exec q ;;
    match err with
    | dyn e => ret (Plain inil, dyn e)
    | inil => ret (Plain inil, inil)
    end
  else
    let q := mkInserter (into q) (columns q) (values q) pKey in
    do (keyMap, err) <- call_inserter_One q ;;
    match err with
    | dyn e => ret (Plain inil, dyn e)
    | inil => ret (key_of pKey keyMap, inil)
    end.

(** [func (t *table) Insert(item interface{}) (interface{}, error)].
    The statement deferred on line 111 runs after the result of lines
    115-140 is fixed, and what it returns is dropped. *)
Definition Insert (item : Item) : M (outcome (key * iface E)) :=
  let '(columnNames, columnValues, err) := sqlbuilder_Map item in
  match err with
  | dyn e => ret (Done (Plain inil, dyn e))
  | inil =>
      do pKey <- call_PrimaryKeys ;;
      match scan_columns pKey columnNames columnValues 0 false with
      | Panic => ret Panic
      | Done hasKeys =>
          do r <- explicit_keys hasKeys ;;
          match r with
          | inl e => ret (Done (Plain inil, dyn e))
          | inr deferred =>
              do t <- get_table ;;
              do res <- insert_row pKey columnNames columnValues ;;
              do _ <- (if deferred then call_Exec (identity_off (name t))
                    else ret inil) ;;
              ret (Done res)
          end
      end
  end.

(** The answer recorded in [ev] is what the collaborator gives in the
    backend state [s], which it leaves as [s1]. *)
Definition answered (ev : event) (s s1 : World) : Prop :=
  match ev with
  | EvPrimaryKeys pKey => PrimaryKeys s = (pKey, s1)
  | EvQueryRow query arg row err => QueryRow query arg s = (row, err, s1)
  | EvExec query err => Exec query s = (err, s1)
  | EvInsertExec q err => inserter_Exec q s = (err, s1)
  | EvInsertOne q keyMap err => inserter_One q s = (keyMap, err, s1)
  end.

(** The calls recorded in [evs], made one after the other from the
    backend state [s], lead to the state [s']. *)
Fixpoint threads (s : World) (evs : list event) (s' : World) : Prop :=
  match evs with
  | [] => s = s'
  | ev :: evs' => exists s1, answered ev s s1 /\ threads s1 evs' s'
  end.

End Table.

Arguments Plain {V} x.
Arguments Compound {V} m.
Arguments mkInserter {V} into columns values returning.
Arguments into {V} i.
Arguments columns {V} i.
Arguments values {V} i.
Arguments returning {V} i.
Arguments EvPrimaryKeys {V E Row} pKey.
Arguments EvQueryRow {V E Row} query arg row err.
Arguments EvExec {V E Row} query err.
Arguments EvInsertExec {V E Row} q err.
Arguments EvInsertOne {V E Row} q keyMap err.
Arguments ret {V E Row World A} a _.
Arguments bind {V E Row World A B} m k _.
Arguments call_PrimaryKeys {V E Row World} PrimaryKeys _.
Arguments call_QueryRow {V E Row World} QueryRow query arg _.
Arguments call_Exec {V E Row World} Exec query _.
Arguments call_inserter_Exec {V E Row World} inserter_Exec q _.
Arguments call_inserter_One {V E Row World} inserter_One q _.
Arguments get_table {V E Row World} _.
Arguments set_hasIdentityColumn {V E Row World} b _.
Arguments scan_pKey {V} pKey column value hasKeys.
Arguments scan_columns {V} pKey columnNames columnValues i hasKeys.
Arguments detect_identity {V E Row World} QueryRow Scan _.
Arguments explicit_keys {V E Row World} QueryRow Scan Exec hasKeys _.
Arguments key_of {V} pKey keyMap.
Arguments insert_row {V E Row World} inserter_Exec inserter_One
  pKey columnNames columnValues _.
Arguments answered {V E Row World} PrimaryKeys QueryRow Exec inserter_Exec
  inserter_One ev s s1.
Arguments threads {V E Row World} PrimaryKeys QueryRow Exec inserter_Exec
  inserter_One s evs s'.
Arguments Insert {Item V E Row World} sqlbuilder_Map PrimaryKeys QueryRow Scan
  Exec inserter_Exec inserter_One item _.

(** Some column of the item that is named in the primary-key list
    carries a non-nil value. *)
Definition has_explicit_key {V : Type} (pKey columnNames : list string)
    (columnValues : list (iface V)) : Prop :=
  exists i c x,
    columnNames !! i = Some c /\ c ∈ pKey /\ columnValues !! i = Some (dyn x).

(** The backend answers a statement with a RETURNING clause by a row
    that has exactly the columns asked for. *)
Definition returns_requested {V E World : Type}
    (inserter_One :
       inserter V -> World -> gmap string (iface V) * iface E * World) : Prop :=
  forall q s km s',
    inserter_One q s = (km, inil, s') ->
    dom km = (list_to_set (returning q) : gset string).

(** The statements of the identity-column handling. *)
Definition identity_event {V E Row : Type} (ev : event V E Row) : bool :=
  match ev with
  | EvQueryRow _ _ _ _ | EvExec _ _ => true
  | _ => false
  end.

(** [func newTable(d *database, name string) *table], the session [d]
    being the backend that [Insert] is run against. *)
Definition newTable (Name : string) : table := mkTable Name None.

(** [func (t *table) Name() string]. *)
Definition Name (t : table) : string := name t.

(** The insert statement itself, in either of its two forms. *)
Definition insert_event {V E Row : Type} (ev : event V E Row) : bool :=
  match ev with
  | EvInsertExec _ _ | EvInsertOne _ _ _ => true
  | _ => false
  end.

(** The query on [sys.identity_columns]. *)
Definition query_event {V E Row : Type} (ev : event V E Row) : bool :=
  match ev with
  | EvQueryRow _ _ _ _ => true
  | _ => false
  end.

(** [SET IDENTITY_INSERT .. ON] or [.. OFF]. *)
Definition toggle_event {V E Row : Type} (ev : event V E Row) : bool :=
  match ev with
  | EvExec _ _ => true
  | _ => false
  end.

(** Some column of the item that is named in the primary-key list has no
    slot in the values. *)
Definition missing_value {V : Type} (pKey columnNames : list string)
    (columnValues : list (iface V)) : Prop :=
  exists i c,
    columnNames !! i = Some c /\ c ∈ pKey /\ columnValues !! i = None.

End Mssql.

(** * Instances used to exercise the statements below *)
Module Fixtures.

(** A [*exql.Column] living at [addr] whose exported field is [Name]. *)
Record column : Type := Column { addr : positive; Name : string }.

Definition column_type (c : column) : string := "*exql.Column".

(** A stand-in for [cache.Hash]: it reads the exported content only. *)
Definition column_hash (c : column) : string := "h" +:+ Name c.

Definition same_content (a b : column) : Prop := Name a = Name b.

(** A PostgreSQL session whose values are all of built-in kinds and
    whose [autoWrap] finds nothing to wrap. *)
Abbreviation pgvalue := (Postgresql.value unit unit unit Empty_set Empty_set).

Definition no_wrapper (w : Empty_set) : pgvalue := match w with end.

Definition wrap_nothing (x : pgvalue) : pgvalue := x.

(** The caller's [[]interface{}{[]int64{1, 2}, "a"}] in the array at 1. *)
Definition args_store : gmap Postgresql.loc (list pgvalue) :=
  {[ 1%positive := [Postgresql.Int64s [1%Z; 2%Z];
                    Postgresql.HandledByPq tt] ]}.

Definition args : Postgresql.slice := Postgresql.mkSlice 1%positive 0 2.

(** A backend for [Mssql.Insert]: items are lists of columns with their
    values, the table has the primary keys [pk], the count of identity
    columns is [identities], every statement succeeds except the insert
    when [fail] is set, and generated keys are numbered from the state. *)
Definition fake_Map (item : list (string * iface Z))
    : list string * list (iface Z) * iface string :=
  (item.*1, item.*2, inil).

Definition fake_PrimaryKeys (pk : list string) (w : nat) : list string * nat :=
  (pk, w).

Definition fake_QueryRow (identities : Z) (query arg : string) (w : nat)
    : Z * iface string * nat :=
  (identities, inil, w).

Definition fake_Scan (row : Z) : Z * iface string := (row, inil).

Definition fake_Exec (query : string) (w : nat) : iface string * nat :=
  (inil, w).

Definition fake_failure (fail : bool) : iface string :=
  if fail then dyn "Violation of PRIMARY KEY constraint" else inil.

Definition fake_inserter_Exec (fail : bool) (q : Mssql.inserter Z) (w : nat)
    : iface string * nat :=
  (fake_failure fail, S w).

Definition fake_inserter_One (fail : bool) (q : Mssql.inserter Z) (w : nat)
    : gmap string (iface Z) * iface string * nat :=
  (list_to_map ((fun k => (k, dyn (Z.of_nat w))) <$> Mssql.returning q),
   fake_failure fail, S w).

(** [Insert] over that backend. *)
Definition fake_Insert (pk : list string) (identities : Z) (fail : bool) :=
  Mssql.Insert fake_Map (fake_PrimaryKeys pk) (fake_QueryRow identities)
    fake_Scan fake_Exec (fake_inserter_Exec fail) (fake_inserter_One fail).

(** A stand-in for [%q] on names that need no escaping. *)
Definition fake_Quote (s : string) : string :=
  String (ascii_of_nat 34) s +:+ String (ascii_of_nat 34) EmptyString.

(** A session on which every query gives the same rows and final error. *)
Definition fake_Iterator (rows : list (string * iface string))
    (err : iface string) (q : Postgresql.selector)
    : Postgresql.iterator string :=
  Postgresql.mkIterator rows err false.

(** A backend for [Mssql.Insert] in which single steps can be made to
    fail: the query on [sys.identity_columns], either toggle on the
    table [users], and the insert statement. *)
Record script : Type := Script {
  s_pk : list string;
  s_identities : Z;
  s_query_fails : bool;
  s_on_fails : bool;
  s_off_fails : bool;
  s_insert_fails : bool
}.

Definition scripted_QueryRow (sc : script) (query arg : string) (w : nat)
    : Z * iface string * nat :=
  (s_identities sc,
   if s_query_fails sc then dyn "invalid object name" else inil, w).

Definition scripted_Exec (sc : script) (query : string) (w : nat)
    : iface string * nat :=
  (if String.eqb query (Mssql.identity_on "users") && s_on_fails sc
   then dyn "cannot set IDENTITY_INSERT"
   else if String.eqb query (Mssql.identity_off "users") && s_off_fails sc
   then dyn "connection lost"
   else inil, w).

Definition scripted_Insert (sc : script) :=
  Mssql.Insert fake_Map (fake_PrimaryKeys (s_pk sc)) (scripted_QueryRow sc)
    fake_Scan (scripted_Exec sc) (fake_inserter_Exec (s_insert_fails sc))
    (fake_inserter_One (s_insert_fails sc)).

(** A mapping that loses the values of the item. *)
Definition short_Map (item : list (string * iface Z))
    : list string * list (iface Z) * iface string :=
  (item.*1, [], inil).

Definition short_Insert (pk : list string) :=
  Mssql.Insert short_Map (fake_PrimaryKeys pk) (fake_QueryRow 0)
    fake_Scan fake_Exec (fake_inserter_Exec false) (fake_inserter_One false).

(** A backend for [Mssql.Insert] whose state is the next generated key
    and the IDENTITY_INSERT setting of the table [users], which the two
    toggles switch. *)
Definition toggling_PrimaryKeys (pk : list string) (w : nat * bool)
    : list string * (nat * bool) :=
  (pk, w).

Definition toggling_QueryRow (identities : Z) (query arg : string)
    (w : nat * bool) : Z * iface string * (nat * bool) :=
  (identities, inil, w).

Definition toggling_Exec (query : string) (w : nat * bool)
    : iface string * (nat * bool) :=
  (inil,
   (fst w,
    if String.eqb query (Mssql.identity_on "users") then true
    else if String.eqb query (Mssql.identity_off "users") then false
    else snd w)).

Definition toggling_inserter_Exec (fail : bool) (q : Mssql.inserter Z)
    (w : nat * bool) : iface string * (nat * bool) :=
  (fake_failure fail, (S (fst w), snd w)).

Definition toggling_inserter_One (fail : bool) (q : Mssql.inserter Z)
    (w : nat * bool) : gmap string (iface Z) * iface string * (nat * bool) :=
  (list_to_map ((fun k => (k, dyn (Z.of_nat (fst w)))) <$> Mssql.returning q),
   fake_failure fail, (S (fst w), snd w)).

Definition toggling_Insert (pk : list string) (identities : Z) (fail : bool) :=
  Mssql.Insert fake_Map (toggling_PrimaryKeys pk) (toggling_QueryRow identities)
    fake_Scan toggling_Exec (toggling_inserter_Exec fail)
    (toggling_inserter_One fail).

Definition users : Mssql.table := Mssql.mkTable "users" None.

Definition col_a : column := Column 1 "id".
Definition col_b : column := Column 2 "id".
Definition col_c : column := Column 3 "name".

End Fixtures.

(** * Properties of the fingerprint cell *)
Module ExqlFacts.
Import Exql.

Section Cell.
Context {V : Type} (TypeOf cache_Hash : V -> string).

Local Abbreviation Hash := (Exql.Hash TypeOf cache_Hash).
Local Abbreviation fingerprint := (Exql.fingerprint TypeOf cache_Hash).
Local Abbreviation serves := (Exql.serves TypeOf cache_Hash).
Local Abbreviation hash_all := (Exql.hash_all TypeOf cache_Hash).

(** Structural equality of fragment contents, which the deep content
    hash of [internal/cache] respects. *)
Variable struct_eq : V -> V -> Prop.
Hypothesis cache_Hash_structural :
  forall a b, struct_eq a b -> cache_Hash a = cache_Hash b.

Lemma fingerprint_nonempty x : fingerprint x <> "".
Proof.
  unfold Exql.fingerprint. destruct (TypeOf x); discriminate.
Qed.

Lemma Hash_vacant h x :
  vacant h ->
  Hash h (dyn x) = Done (fingerprint x, mkHash (Some (fingerprint x))).
Proof.
  intros [E | E]; unfold Exql.Hash; rewrite E; reflexivity.
Qed.

Lemma Hash_cached h r i :
  v h = Some r -> r <> "" -> Hash h i = Done (r, h).
Proof.
  intros E Hr. unfold Exql.Hash. rewrite E.
  apply String.eqb_neq in Hr. rewrite Hr. reflexivity.
Qed.

Lemma Hash_serves h x :
  serves h x ->
  Hash h (dyn x) = Done (fingerprint x, mkHash (Some (fingerprint x))).
Proof.
  intros [Hv | E].
  - apply Hash_vacant, Hv.
  - rewrite (Hash_cached h (fingerprint x) (dyn x) E (fingerprint_nonempty x)).
    destruct h as [c]. simpl in E. rewrite E. reflexivity.
Qed.

Lemma fingerprint_structural a b :
  TypeOf a = TypeOf b -> struct_eq a b -> fingerprint a = fingerprint b.
Proof.
  intros Ht Hs. unfold Exql.fingerprint.
  rewrite Ht, (cache_Hash_structural a b Hs). reflexivity.
Qed.

(** Whatever [Hash] returns is non-empty and is what the cell holds
    afterwards. *)
Lemma Hash_returns h i s h' :
  Hash h i = Done (s, h') -> s <> "" /\ v h' = Some s.
Proof.
  unfold Exql.Hash. destruct (v h) as [r |] eqn:E.
  - destruct (String.eqb r "") eqn:Er; simpl.
    + destruct i as [| x]; [discriminate |].
      intros [= <- <-]. split; [apply fingerprint_nonempty | reflexivity].
    + intros [= <- <-]. split; [| exact E].
      apply String.eqb_neq, Er.
  - destruct i as [| x]; [discriminate |].
    intros [= <- <-]. split; [apply fingerprint_nonempty | reflexivity].
Qed.

Lemma hash_all_cached h s js :
  v h = Some s -> s <> "" ->
  hash_all h js = Done (repeat s (length js), h).
Proof.
  intros E Hs. induction js as [| j js IH]; simpl.
  - reflexivity.
  - rewrite (Hash_cached h s j E Hs), IH. reflexivity.
Qed.

(** C1. Two cells that hold nothing, or that already serve the same
    content, return for structurally equal fragments of one type the
    same string, the type name joined by a colon to the deep content
    hash; further calls on either cell with either fragment return
    that string again. *)
Theorem fingerprint_stable (h1 h2 : hash) (a b : V) :
  TypeOf a = TypeOf b -> struct_eq a b ->
  serves h1 a -> serves h2 b ->
  let s := TypeOf a +:+ ":" +:+ cache_Hash a in
  let c := mkHash (Some s) in
  Hash h1 (dyn a) = Done (s, c) /\ Hash h2 (dyn b) = Done (s, c) /\
  Hash c (dyn a) = Done (s, c) /\ Hash c (dyn b) = Done (s, c).
Proof.
  intros Ht Hs H1 H2 s c.
  assert (Eab : fingerprint b = s) by
    (symmetry; apply fingerprint_structural; assumption).
  assert (Hc : forall i, Hash c i = Done (s, c)).
  { intros i. apply Hash_cached; [reflexivity |].
    apply fingerprint_nonempty. }
  repeat split.
  - apply Hash_serves, H1.
  - rewrite (Hash_serves h2 b H2), Eab. reflexivity.
  - apply Hc.
  - apply Hc.
Qed.

(** C2. After [Reset] the next [Hash] behaves as on a cell that was
    never used: it returns and stores the fingerprint of the argument
    it is given, whatever the cell held before, so a string cached
    earlier that is not the fingerprint of this argument is not
    returned. *)
Theorem reset_recomputes (h : hash) (i : iface V) :
  Hash (Reset h) i = Hash zero i /\
  (forall x, i = dyn x ->
     Hash (Reset h) i = Done (fingerprint x, mkHash (Some (fingerprint x)))) /\
  (forall x stale r h',
     i = dyn x -> v h = Some stale -> stale <> fingerprint x ->
     Hash (Reset h) i = Done (r, h') -> r <> stale).
Proof.
  split; [| split].
  - destruct i; reflexivity.
  - intros x ->. reflexivity.
  - intros x stale r h' -> _ Hne. simpl. intros [= <- _].
    intros E. apply Hne. symmetry. exact E.
Qed.

(** C9. A string returned by [Hash] is non-empty, and from then on
    every [Hash] on the cell returns it and leaves the cell as it is,
    whatever the argument; only [Reset] empties the cell. *)
Theorem cached_until_reset (h h' : hash) (i : iface V) (s : string) :
  Hash h i = Done (s, h') ->
  s <> "" /\
  (forall j, Hash h' j = Done (s, h')) /\
  (forall js, hash_all h' js = Done (repeat s (length js), h')) /\
  vacant (Reset h').
Proof.
  intros H. destruct (Hash_returns h i s h' H) as [Hs E].
  repeat split.
  - exact Hs.
  - intros j. apply Hash_cached; assumption.
  - intros js. apply hash_all_cached; assumption.
  - right. reflexivity.
Qed.

End Cell.

Lemma fingerprint_stable_witness :
  let s := "*exql.Column:hid" in
  let c := mkHash (Some s) in
  Hash Fixtures.column_type Fixtures.column_hash zero (dyn Fixtures.col_a)
    = Done (s, c) /\
  Hash Fixtures.column_type Fixtures.column_hash (Reset zero) (dyn Fixtures.col_b)
    = Done (s, c) /\
  Hash Fixtures.column_type Fixtures.column_hash c (dyn Fixtures.col_a)
    = Done (s, c) /\
  Hash Fixtures.column_type Fixtures.column_hash c (dyn Fixtures.col_b)
    = Done (s, c).
Proof.
  apply (fingerprint_stable Fixtures.column_type Fixtures.column_hash
           Fixtures.same_content
           (fun a b (H : Fixtures.same_content a b) =>
              f_equal (String.append "h") H)
           zero (Reset zero) Fixtures.col_a Fixtures.col_b).
  - reflexivity.
  - reflexivity.
  - left. left. reflexivity.
  - left. right. reflexivity.
Defined.

Lemma reset_recomputes_witness :
  exists r h',
    Hash Fixtures.column_type Fixtures.column_hash
      (Reset (mkHash (Some "*exql.Column:hname"))) (dyn Fixtures.col_a)
    = Done (r, h') /\
    r <> "*exql.Column:hname".
Proof.
  exists "*exql.Column:hid", (mkHash (Some "*exql.Column:hid")).
  split; [reflexivity |].
  apply (proj2 (proj2 (reset_recomputes Fixtures.column_type
                         Fixtures.column_hash
                         (mkHash (Some "*exql.Column:hname"))
                         (dyn Fixtures.col_a)))
           Fixtures.col_a "*exql.Column:hname" "*exql.Column:hid"
           (mkHash (Some "*exql.Column:hid"))).
  - reflexivity.
  - reflexivity.
  - discriminate.
  - reflexivity.
Defined.

Lemma cached_until_reset_witness :
  Hash Fixtures.column_type Fixtures.column_hash zero (dyn Fixtures.col_a)
  = Done ("*exql.Column:hid", mkHash (Some "*exql.Column:hid")) /\
  Hash Fixtures.column_type Fixtures.column_hash
    (mkHash (Some "*exql.Column:hid")) (dyn Fixtures.col_c)
  = Done ("*exql.Column:hid", mkHash (Some "*exql.Column:hid")) /\
  Hash Fixtures.column_type Fixtures.column_hash
    (mkHash (Some "*exql.Column:hid")) inil
  = Done ("*exql.Column:hid", mkHash (Some "*exql.Column:hid")).
Proof.
  assert (H : Hash Fixtures.column_type Fixtures.column_hash zero
                (dyn Fixtures.col_a)
              = Done ("*exql.Column:hid", mkHash (Some "*exql.Column:hid")))
    by reflexivity.
  split; [exact H |].
  destruct (cached_until_reset Fixtures.column_type Fixtures.column_hash
              zero (mkHash (Some "*exql.Column:hid")) (dyn Fixtures.col_a)
              "*exql.Column:hid" H) as (_ & Hall & _).
  split; apply Hall.
Defined.

Section Separation.
Context {V : Type} (TypeOf cache_Hash : V -> string).

Local Abbreviation Hash := (Exql.Hash TypeOf cache_Hash).
Local Abbreviation fingerprint := (Exql.fingerprint TypeOf cache_Hash).
Local Abbreviation hash_all := (Exql.hash_all TypeOf cache_Hash).

Lemma colon_inside (a b : string) : colon_free (a +:+ String ":" b) = false.
Proof.
  induction a as [| c a IH]; simpl.
  - reflexivity.
  - rewrite IH. apply andb_false_r.
Qed.

(** A string splits in one way only into a part, a colon and a part
    that has no colon. *)
Lemma split_at_last_colon (t1 t2 h1 h2 : string) :
  colon_free h1 = true -> colon_free h2 = true ->
  t1 +:+ String ":" h1 = t2 +:+ String ":" h2 -> t1 = t2 /\ h1 = h2.
Proof.
  intros H1 H2. revert t2. induction t1 as [| c t1 IH]; intros [| d t2]; simpl.
  - intros [= ->]. split; reflexivity.
  - intros [= <- ->]. rewrite colon_inside in H1. discriminate.
  - intros [= -> <-]. rewrite colon_inside in H2. discriminate.
  - intros [= -> E]. destruct (IH _ E) as [-> ->]. split; reflexivity.
Qed.

(** X1. When the content hashes carry no colon, the string that [Hash]
    computes on an empty cell determines both the type name and the
    content hash of its argument: values of different types, or with
    different content hashes, never get the same fingerprint. *)
Theorem fingerprint_separates (h1 h2 c1 c2 : hash) (a b : V) (s : string) :
  colon_free (cache_Hash a) = true -> colon_free (cache_Hash b) = true ->
  vacant h1 -> vacant h2 ->
  Hash h1 (dyn a) = Done (s, c1) -> Hash h2 (dyn b) = Done (s, c2) ->
  TypeOf a = TypeOf b /\ cache_Hash a = cache_Hash b.
Proof.
  intros Ha Hb V1 V2 E1 E2.
  rewrite (Hash_vacant TypeOf cache_Hash h1 a V1) in E1.
  rewrite (Hash_vacant TypeOf cache_Hash h2 b V2) in E2.
  injection E1 as E1 _. injection E2 as E2 _.
  apply (split_at_last_colon _ _ _ _ Ha Hb).
  change (fingerprint a = fingerprint b). rewrite E1, E2. reflexivity.
Qed.

(** X2. After a [Reset], the first value hashed decides what the cell
    answers from then on: that call and every later one, whatever they
    are given, return the fingerprint of that first value. *)
Theorem hash_all_after_reset (h : hash) (x : V) (js : list (iface V)) :
  hash_all (Reset h) (dyn x :: js)
  = Done (repeat (fingerprint x) (S (length js)),
          mkHash (Some (fingerprint x))).
Proof.
  simpl.
  rewrite (hash_all_cached TypeOf cache_Hash
             (mkHash (Some (fingerprint x))) (fingerprint x) js eq_refl
             (fingerprint_nonempty TypeOf cache_Hash x)).
  reflexivity.
Qed.

End Separation.

Lemma fingerprint_separates_witness :
  Fixtures.column_type Fixtures.col_a = Fixtures.column_type Fixtures.col_b /\
  Fixtures.column_hash Fixtures.col_a = Fixtures.column_hash Fixtures.col_b.
Proof.
  apply (fingerprint_separates Fixtures.column_type Fixtures.column_hash
           zero (Reset zero)
           (mkHash (Some "*exql.Column:hid")) (mkHash (Some "*exql.Column:hid"))
           Fixtures.col_a Fixtures.col_b "*exql.Column:hid").
  - reflexivity.
  - reflexivity.
  - left. reflexivity.
  - right. reflexivity.
  - reflexivity.
  - reflexivity.
Defined.

End ExqlFacts.

(** * Properties of the PostgreSQL hooks *)
Module PostgresqlFacts.
Import Postgresql.

Lemma prefix_app (p s : string) :
  String.prefix p s = true <-> exists post, s = p +:+ post.
Proof.
  revert s. induction p as [| a p IH]; intros s.
  - split; [intros _; exists s; reflexivity | destruct s; reflexivity].
  - destruct s as [| b s]; simpl.
    + split; [discriminate | intros [post H]; discriminate].
    + destruct (Ascii.ascii_dec a b) as [-> | Hne].
      * rewrite IH. split; intros [post H]; exists post.
        -- rewrite H. reflexivity.
        -- injection H as H. exact H.
      * split; [discriminate |].
        intros [post H]. injection H as Hb _. congruence.
Qed.

(** [Contains] decides [occurs]. *)
Lemma Contains_occurs (s sub : string) :
  Contains s sub = true <-> occurs sub s.
Proof.
  unfold occurs. induction s as [| a s IH].
  - change (Contains "" sub) with (String.prefix sub "" || false).
    rewrite orb_false_r, prefix_app. split.
    + intros [post H]. exists "", post. exact H.
    + intros [pre [post H]]. destruct pre; [| discriminate].
      exists post. exact H.
  - change (Contains (String a s) sub)
      with (String.prefix sub (String a s) || Contains s sub).
    rewrite orb_true_iff, prefix_app, IH. split.
    + intros [[post H] | [pre [post H]]].
      * exists "", post. exact H.
      * exists (String a pre), post. simpl. rewrite H. reflexivity.
    + intros [pre [post H]]. destruct pre as [| b pre].
      * left. exists post. exact H.
      * right. simpl in H. injection H as _ H. exists pre, post. exact H.
Qed.

Lemma Contains_false (s sub : string) :
  Contains s sub = false <-> ~ occurs sub s.
Proof.
  rewrite <- Contains_occurs. destruct (Contains s sub); split; intros H.
  - discriminate.
  - exfalso. apply H. reflexivity.
  - discriminate.
  - reflexivity.
Qed.

Section Err.
Context {E : Type} (Error : E -> string) (ErrTooManyClients : E).

Local Abbreviation Err := (Postgresql.Err Error ErrTooManyClients).

(** C7. An error whose text contains one of the three messages becomes
    [db.ErrTooManyClients]; any other error, and nil, comes back as it
    was given. *)
Theorem Err_translates :
  (forall e, out_of_connections (Error e) ->
             Err (dyn e) = dyn ErrTooManyClients) /\
  (forall e, ~ out_of_connections (Error e) -> Err (dyn e) = dyn e) /\
  Err inil = inil.
Proof.
  unfold out_of_connections. split; [| split].
  - intros e H. simpl.
    rewrite <- !Contains_occurs in H.
    destruct H as [H | [H | H]]; rewrite H; rewrite ?orb_true_r; reflexivity.
  - intros e H. simpl.
    destruct (Contains (Error e) "too many clients") eqn:H1;
      [exfalso; apply H; left; apply Contains_occurs, H1 |].
    destruct (Contains (Error e) "remaining connection slots are reserved") eqn:H2;
      [exfalso; apply H; right; left; apply Contains_occurs, H2 |].
    destruct (Contains (Error e) "too many open") eqn:H3;
      [exfalso; apply H; right; right; apply Contains_occurs, H3 |].
    reflexivity.
  - reflexivity.
Qed.
End Err.

Lemma Err_translates_witness :
  Postgresql.Err (fun e : string => e) "upper: too many clients"
    (dyn "pq: sorry, too many clients already")
  = dyn "upper: too many clients".
Proof.
  apply (proj1 (Err_translates (fun e : string => e) "upper: too many clients")).
  left. exists "pq: sorry, ", " already". reflexivity.
Defined.

Section ConvertValues.
Context {X F J W O : Type}.
Context (WrapValue : W -> value X F J W O).
Context (autoWrap : value X F J W O -> value X F J W O).

Local Abbreviation value := (Postgresql.value X F J W O).
Local Abbreviation convert := (Postgresql.convert WrapValue autoWrap).
Local Abbreviation converted := (Postgresql.converted WrapValue autoWrap).
Local Abbreviation step := (Postgresql.step WrapValue autoWrap).
Local Abbreviation ConvertValues :=
  (Postgresql.ConvertValues WrapValue autoWrap).

Implicit Types (m : gmap loc (list value)) (s : slice) (a b : list value).

Lemma elems_lookup m s a i :
  m !! array s = Some a -> i < len s ->
  elems m s !! i = a !! (off s + i).
Proof.
  intros Ha Hi. unfold elems. rewrite Ha. simpl.
  rewrite lookup_take_lt by exact Hi. apply lookup_drop.
Qed.

(** One iteration writes the converted element back where it was. *)
Lemma step_spec m s b i x :
  m !! array s = Some b -> i < len s -> b !! (off s + i) = Some x ->
  step s m i = <[array s := <[off s + i := converted x]> b]> m.
Proof.
  intros Hb Hi Hx. unfold Postgresql.step, Postgresql.converted.
  rewrite (elems_lookup m s b i Hb Hi), Hx.
  destruct (convert x) as [y |]; simpl.
  - unfold assign. rewrite Hb. reflexivity.
  - rewrite (list_insert_id b _ x Hx). symmetry. apply insert_id, Hb.
Qed.

(** The array after the first [n] iterations. *)
Lemma loop_spec m s a n :
  m !! array s = Some a -> off s + len s <= length a -> n <= len s ->
  exists b,
    fold_left (step s) (seq 0 n) m = <[array s := b]> m /\
    length b = length a /\
    forall j, b !! j = if decide (off s <= j < off s + n)
                       then converted <$> a !! j else a !! j.
Proof.
  intros Ha Hlen. induction n as [| n IH]; intros Hn.
  - exists a. split; [| split].
    + simpl. symmetry. apply insert_id, Ha.
    + reflexivity.
    + intros j. case_decide; [lia | reflexivity].
  - destruct IH as (b & Hfold & Hb & Hj); [lia |].
    assert (Hx : is_Some (a !! (off s + n))).
    { apply lookup_lt_is_Some. lia. }
    destruct Hx as [x Hx].
    assert (Hbx : b !! (off s + n) = Some x).
    { rewrite Hj. case_decide; [lia | exact Hx]. }
    exists (<[off s + n := converted x]> b). split; [| split].
    + rewrite seq_S, fold_left_app, Hfold. simpl.
      rewrite (step_spec _ s b n x); [| apply lookup_insert_eq | lia | exact Hbx].
      apply insert_insert_eq.
    + rewrite length_insert. exact Hb.
    + intros j. destruct (decide (off s + n = j)) as [<- | Hne].
      * rewrite list_lookup_insert_eq by (rewrite Hb; lia).
        rewrite Hx. case_decide; [reflexivity | lia].
      * rewrite list_lookup_insert_ne by exact Hne.
        rewrite Hj. repeat case_decide; try reflexivity; lia.
Qed.

(** C5, as the code has it. [ConvertValues] works in place: it returns
    the slice it was given, over the same array, in which every
    element of the slice has been replaced by its converted form; the
    rest of the array and all other arrays are as before. *)
Theorem ConvertValues_in_place m s a :
  m !! array s = Some a -> off s + len s <= length a ->
  exists b,
    ConvertValues m s = (<[array s := b]> m, s) /\
    length b = length a /\
    (forall j, off s <= j < off s + len s ->
               b !! j = converted <$> a !! j) /\
    (forall j, ~ (off s <= j < off s + len s) -> b !! j = a !! j) /\
    elems (<[array s := b]> m) s = converted <$> elems m s.
Proof.
  intros Ha Hlen.
  destruct (loop_spec m s a (len s) Ha Hlen (le_n _)) as (b & Hfold & Hb & Hj).
  exists b. unfold Postgresql.ConvertValues. rewrite Hfold.
  split; [reflexivity |]. split; [exact Hb |].
  split; [| split].
  - intros j Hin. rewrite Hj. case_decide; [reflexivity | lia].
  - intros j Hout. rewrite Hj. case_decide; [contradiction | reflexivity].
  - apply list_eq. intros i. rewrite list_lookup_fmap.
    destruct (decide (i < len s)) as [Hi | Hi].
    + rewrite (elems_lookup _ s b i) by (apply lookup_insert_eq || exact Hi).
      rewrite (elems_lookup m s a i Ha Hi), Hj.
      case_decide; [reflexivity | lia].
    + unfold elems. rewrite !lookup_take_ge by lia. reflexivity.
Qed.

End ConvertValues.

(** C5, as the specification has it, fails: the caller's slice holds a
    [*Int64Array] after the call where it held an [[]int64] before. *)
Lemma ConvertValues_overwrites_argument :
  elems (fst (Postgresql.ConvertValues Fixtures.no_wrapper
                Fixtures.wrap_nothing Fixtures.args_store Fixtures.args))
        Fixtures.args
  <> elems Fixtures.args_store Fixtures.args.
Proof.
  vm_compute. discriminate.
Qed.

Lemma ConvertValues_in_place_witness :
  exists b,
    Postgresql.ConvertValues Fixtures.no_wrapper Fixtures.wrap_nothing
      Fixtures.args_store Fixtures.args
    = (<[1%positive := b]> Fixtures.args_store, Fixtures.args) /\
    b !! 0 = Some (PInt64Array (Local [1%Z; 2%Z])) /\
    b !! 1 = Some (HandledByPq tt).
Proof.
  destruct (ConvertValues_in_place Fixtures.no_wrapper Fixtures.wrap_nothing
              Fixtures.args_store Fixtures.args
              [Int64s [1%Z; 2%Z]; HandledByPq tt])
    as (b & Hrun & _ & Hin & _).
  - reflexivity.
  - simpl. lia.
  - exists b. split; [exact Hrun |]. split.
    + rewrite (Hin 0); [reflexivity | simpl; lia].
    + rewrite (Hin 1); [reflexivity | simpl; lia].
Defined.

Lemma string_app_assoc (a b c : string) : (a +:+ b) +:+ c = a +:+ (b +:+ c).
Proof.
  induction a as [| x a IH]; [reflexivity |].
  change (String x ((a +:+ b) +:+ c) = String x (a +:+ (b +:+ c))).
  rewrite IH. reflexivity.
Qed.

Lemma occurs_trans (a b c : string) : occurs a b -> occurs b c -> occurs a c.
Proof.
  intros (p1 & q1 & ->) (p2 & q2 & ->).
  exists (p2 +:+ p1), (q1 +:+ q2).
  rewrite !string_app_assoc. reflexivity.
Qed.

Section ErrMore.
Context {E : Type} (Error : E -> string) (ErrTooManyClients : E).

Local Abbreviation Err := (Postgresql.Err Error ErrTooManyClients).

Lemma Err_out_of_connections e :
  out_of_connections (Error e) -> Err (dyn e) = dyn ErrTooManyClients.
Proof.
  unfold out_of_connections. rewrite <- !Contains_occurs.
  intros H. unfold Postgresql.Err.
  destruct H as [H | [H | H]]; rewrite H; rewrite ?orb_true_r; reflexivity.
Qed.

Lemma Err_cases e : Err (dyn e) = dyn ErrTooManyClients \/ Err (dyn e) = dyn e.
Proof.
  unfold Postgresql.Err.
  destruct (Contains (Error e) "too many clients"
            || Contains (Error e) "remaining connection slots are reserved"
            || Contains (Error e) "too many open"); [left | right]; reflexivity.
Qed.

(** X3. Translating twice is the same as translating once, whatever the
    text of [db.ErrTooManyClients] itself is. *)
Theorem Err_idempotent (err : iface E) : Err (Err err) = Err err.
Proof.
  destruct err as [| e]; [reflexivity |].
  destruct (Err_cases e) as [H | H]; rewrite H.
  - destruct (Err_cases ErrTooManyClients) as [H' | H']; exact H'.
  - exact H.
Qed.

(** X4. [Err] neither drops an error nor makes one up: it returns nil
    exactly when it is given nil. *)
Theorem Err_nil_iff (err : iface E) : Err err = inil <-> err = inil.
Proof.
  destruct err as [| e]; [split; reflexivity |].
  split; [| discriminate].
  destruct (Err_cases e) as [H | H]; rewrite H; discriminate.
Qed.

(** X5. An error that wraps the text of an out-of-connections error, as
    [fmt.Errorf("...: %v", err)] does, is translated like the error it
    wraps. *)
Theorem Err_wrapped (e e' : E) :
  out_of_connections (Error e) -> occurs (Error e) (Error e') ->
  Err (dyn e') = dyn ErrTooManyClients.
Proof.
  intros H Hin. apply Err_out_of_connections.
  unfold out_of_connections in *.
  destruct H as [H | [H | H]]; [left | right; left | right; right];
    exact (occurs_trans _ _ _ H Hin).
Qed.

End ErrMore.

Lemma Err_nil_iff_witness :
  Postgresql.Err (fun e : string => e) "upper: too many clients" inil = inil.
Proof.
  apply (proj2 (Err_nil_iff (fun e : string => e) "upper: too many clients"
                  inil)).
  reflexivity.
Defined.

Lemma Err_wrapped_witness :
  Postgresql.Err (fun e : string => e) "upper: too many clients"
    (dyn "query failed: pq: sorry, too many clients already (attempt 3)")
  = dyn "upper: too many clients".
Proof.
  apply (Err_wrapped (fun e : string => e) "upper: too many clients"
           "pq: sorry, too many clients already").
  - left. exists "pq: sorry, ", " already". reflexivity.
  - exists "query failed: ", " (attempt 3)". reflexivity.
Defined.

Section Names.
Context (Quote : string -> string).

Local Abbreviation quotedTableName := (Postgresql.quotedTableName Quote).

Lemma Split_cons (s : string) (sep : ascii) :
  exists chunk chunks, Split s sep = chunk :: chunks.
Proof.
  induction s as [| c s (chunk & chunks & IH)]; simpl.
  - eauto.
  - destruct (Ascii.eqb c sep); [eauto |]. rewrite IH. eauto.
Qed.

(** Splitting on both sides of a separator. *)
Lemma Split_app (a b : string) (sep : ascii) :
  Split (a +:+ String sep b) sep = (Split a sep ++ Split b sep)%list.
Proof.
  induction a as [| c a IH]; simpl.
  - rewrite Ascii.eqb_refl. reflexivity.
  - destruct (Ascii.eqb c sep).
    + rewrite IH. reflexivity.
    + rewrite IH. destruct (Split_cons a sep) as (chunk & chunks & ->).
      reflexivity.
Qed.

Lemma Join_cons (e e' : string) (elems : list string) (sep : string) :
  Join (e :: e' :: elems) sep = e +:+ sep +:+ Join (e' :: elems) sep.
Proof. reflexivity. Qed.

Lemma Join_app (l1 l2 : list string) (sep : string) :
  l1 <> [] -> l2 <> [] ->
  Join (l1 ++ l2) sep = Join l1 sep +:+ sep +:+ Join l2 sep.
Proof.
  intros H1 H2. induction l1 as [| e l1 IH]; [contradiction |].
  destruct l1 as [| e' l1].
  - destruct l2 as [| e2 l2]; [contradiction |]. reflexivity.
  - change ((e :: e' :: l1) ++ l2)%list with (e :: e' :: (l1 ++ l2))%list.
    rewrite !Join_cons.
    change (e' :: (l1 ++ l2))%list with ((e' :: l1) ++ l2)%list.
    rewrite IH by discriminate.
    rewrite !string_app_assoc. reflexivity.
Qed.

Lemma Split_dot_free (s : string) :
  Forall (fun chunk => dot_free chunk = true) (Split s ".").
Proof.
  induction s as [| c s IH]; simpl.
  - repeat constructor.
  - destruct (Ascii.eqb c ".") eqn:Hc.
    + constructor; [reflexivity | exact IH].
    + destruct (Split_cons s ".") as (chunk & chunks & E).
      rewrite E in IH |- *. inversion IH as [| ? ? Hchunk Hchunks]; subst.
      constructor; [| exact Hchunks]. simpl. rewrite Hc, Hchunk. reflexivity.
Qed.

Lemma Join_Split (s : string) (sep : ascii) :
  Join (Split s sep) (String sep "") = s.
Proof.
  induction s as [| c s IH]; simpl; [reflexivity |].
  destruct (Ascii.eqb c sep) eqn:Hc.
  - apply Ascii.eqb_eq in Hc as ->.
    destruct (Split_cons s sep) as (chunk & chunks & E).
    rewrite E in IH |- *. rewrite Join_cons, IH. reflexivity.
  - destruct (Split_cons s sep) as (chunk & chunks & E).
    rewrite E in IH |- *. rewrite <- IH.
    destruct chunks; reflexivity.
Qed.

Lemma Split_plain (s : string) : dot_free s = true -> Split s "." = [s].
Proof.
  induction s as [| c s IH]; simpl; [reflexivity |].
  intros [Hc Hs]%andb_true_iff. apply negb_true_iff in Hc.
  rewrite Hc, (IH Hs). reflexivity.
Qed.

(** X6. A dot in the name separates what is quoted: the quoted form of
    [a.b] is the quoted form of [a], a dot, and the quoted form of [b],
    so schema and table are quoted apart, at every dot. *)
Theorem quotedTableName_dot (a b : string) :
  quotedTableName (a +:+ "." +:+ b)
  = quotedTableName a +:+ "." +:+ quotedTableName b.
Proof.
  unfold Postgresql.quotedTableName.
  change (a +:+ "." +:+ b) with (a +:+ String "." b).
  rewrite Split_app, fmap_app.
  destruct (Split_cons a ".") as (ca & la & ->).
  destruct (Split_cons b ".") as (cb & lb & ->).
  apply Join_app; discriminate.
Qed.

(** X7. A name without a dot is quoted as a whole. *)
Theorem quotedTableName_plain (s : string) :
  dot_free s = true -> quotedTableName s = Quote s.
Proof.
  intros H. unfold Postgresql.quotedTableName.
  rewrite (Split_plain s H). reflexivity.
Qed.

(** X8. What is quoted are pieces without a dot that, put together
    again with dots, are the name given: nothing of it is lost, added
    or reordered before the quoting. *)
Theorem quotedTableName_chunks (s : string) :
  exists chunks,
    quotedTableName s = Join (Quote <$> chunks) "." /\
    Forall (fun chunk => dot_free chunk = true) chunks /\
    Join chunks "." = s.
Proof.
  exists (Split s "."). split; [reflexivity |].
  split; [apply Split_dot_free | apply Join_Split].
Qed.

End Names.

Lemma quotedTableName_plain_witness :
  Postgresql.quotedTableName Fixtures.fake_Quote "users"
  = Fixtures.fake_Quote "users".
Proof.
  apply (quotedTableName_plain Fixtures.fake_Quote "users").
  reflexivity.
Defined.

Section ConvertMore.
Context {X F J W O : Type}.
Context (WrapValue : W -> value X F J W O).
Context (autoWrap : value X F J W O -> value X F J W O).

Local Abbreviation value := (Postgresql.value X F J W O).
Local Abbreviation convert := (Postgresql.convert WrapValue autoWrap).
Local Abbreviation converted := (Postgresql.converted WrapValue autoWrap).
Local Abbreviation step := (Postgresql.step WrapValue autoWrap).
Local Abbreviation ConvertValues :=
  (Postgresql.ConvertValues WrapValue autoWrap).

Implicit Types (m : gmap loc (list value)) (s : slice) (a b : list value).

Lemma handled_convert (x : value) : handled x = true -> convert x = None.
Proof. destruct x; simpl; intros H; (reflexivity || discriminate). Qed.

Lemma builtin_converted (x : value) :
  builtin x = true -> handled (converted x) = true.
Proof. destruct x; simpl; intros H; (reflexivity || discriminate). Qed.

Lemma step_handled m s i :
  Forall (fun x => handled x = true) (elems m s) -> step s m i = m.
Proof.
  intros Hall. unfold Postgresql.step.
  destruct (elems m s !! i) as [x |] eqn:Hx; [| reflexivity].
  rewrite handled_convert; [reflexivity |].
  rewrite Forall_forall in Hall. apply Hall.
  apply (list_elem_of_lookup_2 _ i), Hx.
Qed.

Lemma loop_handled m s (l : list nat) :
  Forall (fun x => handled x = true) (elems m s) ->
  fold_left (step s) l m = m.
Proof.
  intros Hall. induction l as [| i l IH]; simpl; [reflexivity |].
  rewrite (step_handled m s i Hall). exact IH.
Qed.

(** X9. A slice whose elements are all of kinds that the driver handles
    or that already carry a scanner and valuer goes through unchanged:
    nothing is written, in this array or any other. *)
Theorem ConvertValues_handled m s :
  Forall (fun x => handled x = true) (elems m s) ->
  ConvertValues m s = (m, s).
Proof.
  intros Hall. unfold Postgresql.ConvertValues.
  rewrite (loop_handled m s _ Hall). reflexivity.
Qed.

Lemma elems_after_loop m s a b :
  m !! array s = Some a ->
  (forall j, b !! j = if decide (off s <= j < off s + len s)
                      then converted <$> a !! j else a !! j) ->
  elems (<[array s := b]> m) s = converted <$> elems m s.
Proof.
  intros Ha Hj. apply list_eq. intros i. rewrite list_lookup_fmap.
  destruct (decide (i < len s)) as [Hi | Hi].
  - rewrite (elems_lookup _ s b i) by (apply lookup_insert_eq || exact Hi).
    rewrite (elems_lookup m s a i Ha Hi), Hj.
    case_decide; [reflexivity | lia].
  - unfold elems. rewrite !lookup_take_ge by lia. reflexivity.
Qed.

(** X10. On slices, maps and pointers to them, on driver-handled values
    and on values that were converted before, a second conversion
    changes nothing: converting arguments that were already converted
    is harmless. *)
Theorem ConvertValues_twice m s a :
  m !! array s = Some a -> off s + len s <= length a ->
  Forall (fun x => builtin x = true) (elems m s) ->
  ConvertValues (fst (ConvertValues m s)) (snd (ConvertValues m s))
  = ConvertValues m s.
Proof.
  intros Ha Hlen Hall.
  destruct (loop_spec WrapValue autoWrap m s a (len s) Ha Hlen (le_n _))
    as (b & Hfold & _ & Hj).
  unfold Postgresql.ConvertValues at 2 3 4. rewrite Hfold. simpl.
  unfold Postgresql.ConvertValues. rewrite loop_handled; [reflexivity |].
  rewrite (elems_after_loop m s a b Ha Hj).
  apply Forall_fmap. eapply Forall_impl; [exact Hall |].
  intros x Hx. apply builtin_converted, Hx.
Qed.

Lemma step_shape m s i (l : loc) :
  length <$> (step s m i !! l) = length <$> (m !! l).
Proof.
  unfold Postgresql.step.
  destruct (elems m s !! i) as [x |]; [| reflexivity].
  destruct (convert x) as [y |]; [| reflexivity].
  unfold assign. destruct (m !! array s) as [a |] eqn:Ha; [| reflexivity].
  destruct (decide (array s = l)) as [<- | Hne].
  - rewrite lookup_insert_eq, Ha. simpl. rewrite length_insert. reflexivity.
  - rewrite lookup_insert_ne by exact Hne. reflexivity.
Qed.

(** X11. Whatever the store and the slice, well formed or not,
    [ConvertValues] returns the slice it was given and neither creates
    nor drops an array nor changes the length of one: it can only
    replace elements where they are. *)
Theorem ConvertValues_shape m s (l : loc) :
  snd (ConvertValues m s) = s /\
  length <$> (fst (ConvertValues m s) !! l) = length <$> (m !! l).
Proof.
  split; [reflexivity |].
  unfold Postgresql.ConvertValues. simpl.
  generalize (seq 0 (len s)). intros idx. revert m.
  induction idx as [| i idx IH]; intros m; simpl; [reflexivity |].
  rewrite IH. apply step_shape.
Qed.

End ConvertMore.

Lemma ConvertValues_handled_witness :
  Postgresql.ConvertValues Fixtures.no_wrapper Fixtures.wrap_nothing
    Fixtures.args_store (mkSlice 1%positive 1 1)
  = (Fixtures.args_store, mkSlice 1%positive 1 1).
Proof.
  apply (ConvertValues_handled Fixtures.no_wrapper Fixtures.wrap_nothing).
  repeat constructor.
Defined.

Lemma ConvertValues_twice_witness :
  Postgresql.ConvertValues Fixtures.no_wrapper Fixtures.wrap_nothing
    (fst (Postgresql.ConvertValues Fixtures.no_wrapper Fixtures.wrap_nothing
            Fixtures.args_store Fixtures.args))
    (snd (Postgresql.ConvertValues Fixtures.no_wrapper Fixtures.wrap_nothing
            Fixtures.args_store Fixtures.args))
  = Postgresql.ConvertValues Fixtures.no_wrapper Fixtures.wrap_nothing
      Fixtures.args_store Fixtures.args.
Proof.
  apply (ConvertValues_twice Fixtures.no_wrapper Fixtures.wrap_nothing
           Fixtures.args_store Fixtures.args
           [Int64s [1%Z; 2%Z]; HandledByPq tt]).
  - reflexivity.
  - simpl. lia.
  - repeat constructor.
Defined.

Section Queries.
Context {E : Type} (Quote : string -> string) (Name : string).
Context (ErrCollectionDoesNotExist : E).
Context (Iterator : selector -> iterator E).

Local Abbreviation PrimaryKeys := (Postgresql.PrimaryKeys Quote Iterator).
Local Abbreviation Collections := (Postgresql.Collections Iterator).
Local Abbreviation TableExists :=
  (Postgresql.TableExists Name ErrCollectionDoesNotExist Iterator).

(** A row that scans without error. *)
Local Abbreviation scanned := (fun x : string => (x, @inil E)).

Lemma scan_all_scanned (xs : list string) (acc : option (list string)) :
  scan_all (scanned <$> xs) acc
  = (match xs with
     | [] => acc
     | _ :: _ => Some (default [] acc ++ xs)%list
     end, inil).
Proof.
  revert acc. induction xs as [| x xs IH]; intros acc; [reflexivity |].
  change (scan_all (scanned <$> xs) (append acc x)
          = (Some (default [] acc ++ x :: xs)%list, inil)).
  rewrite IH. unfold append. simpl.
  destruct xs; rewrite <- ?app_assoc; reflexivity.
Qed.

Lemma scan_all_failed (xs : list string) x (e : E) rest acc :
  scan_all ((scanned <$> xs) ++ (x, dyn e) :: rest) acc = (None, dyn e).
Proof.
  revert acc. induction xs as [| y xs IH]; intros acc; [reflexivity |].
  apply IH.
Qed.

(** The rows split into those that scan and, if any, the first that
    does not. *)
Lemma rows_split (rs : list (string * iface E)) :
  (exists xs, rs = scanned <$> xs) \/
  (exists xs x e rest, rs = ((scanned <$> xs) ++ (x, dyn e) :: rest)%list).
Proof.
  induction rs as [| [x [| e]] rs IH].
  - left. exists []. reflexivity.
  - destruct IH as [(xs & ->) | (xs & y & e & rest & ->)].
    + left. exists (x :: xs). reflexivity.
    + right. exists (x :: xs), y, e, rest. reflexivity.
  - right. exists [], x, e, rs. reflexivity.
Qed.

Lemma scanned_inj (xs ys : list string) :
  scanned <$> xs = scanned <$> ys -> xs = ys.
Proof.
  revert ys. induction xs as [| x xs IH]; intros [| y ys]; simpl;
    try discriminate; [reflexivity |].
  intros [= -> H]. rewrite (IH _ H). reflexivity.
Qed.

Lemma scanned_not_failed (xs ys : list string) x (e : E) rest :
  scanned <$> xs <> ((scanned <$> ys) ++ (x, dyn e) :: rest)%list.
Proof.
  revert ys. induction xs as [| z xs IH]; intros [| y ys]; simpl;
    try discriminate.
  intros [= _ H]. exact (IH _ H).
Qed.

(** X12. [PrimaryKeys] returns a list and no error exactly when every
    row scans and the iterator reports no error, and the list is then
    the scanned values in the order of the rows (empty, not nil, when
    there are none). *)
Theorem PrimaryKeys_complete (tableName : string) (pk : list string) :
  let iter := Iterator (primary_keys_query Quote tableName) in
  fst (PrimaryKeys tableName) = (Some pk, inil) <->
  rows iter = scanned <$> pk /\ err iter = inil.
Proof.
  intros iter. unfold Postgresql.PrimaryKeys. fold iter. simpl.
  destruct (rows_split (rows iter)) as [(xs & Hr) | (xs & x & e & rest & Hr)];
    rewrite Hr.
  - rewrite scan_all_scanned.
    assert (Hpk : match xs with
                  | [] => Some []
                  | _ :: _ => Some (default [] (Some []) ++ xs)%list
                  end = Some xs) by (destruct xs; reflexivity).
    rewrite Hpk. destruct (err iter) as [| e]; split.
    + intros [= ->]. split; reflexivity.
    + intros [H _]. apply scanned_inj in H as ->. reflexivity.
    + discriminate.
    + intros [_ H]. discriminate.
  - rewrite scan_all_failed. split; [discriminate |].
    intros [H _]. symmetry in H. exfalso. exact (scanned_not_failed _ _ _ _ _ H).
Qed.

(** X13. [PrimaryKeys] never returns part of the keys: when a row fails
    to scan it returns nil and the error of the first such row, without
    regard to the rows after it or to what the iterator reports; when
    all rows scan but the iterator reports an error it returns nil and
    that error. *)
Theorem PrimaryKeys_failure (tableName : string) :
  let iter := Iterator (primary_keys_query Quote tableName) in
  (forall xs x e rest,
     rows iter = ((scanned <$> xs) ++ (x, dyn e) :: rest)%list ->
     fst (PrimaryKeys tableName) = (None, dyn e)) /\
  (forall xs e,
     rows iter = scanned <$> xs -> err iter = dyn e ->
     fst (PrimaryKeys tableName) = (None, dyn e)).
Proof.
  intros iter. unfold Postgresql.PrimaryKeys. fold iter. simpl. split.
  - intros xs x e rest ->. rewrite scan_all_failed. reflexivity.
  - intros xs e -> ->. rewrite scan_all_scanned. destruct xs; reflexivity.
Qed.

(** X14. [Collections] returns the names scanned, in order, and a nil
    error whenever every row scans, also when the iterator stopped on
    an error: unlike [PrimaryKeys] it does not look at [iter.Err()].
    With no rows the list is nil. *)
Theorem Collections_ignores_iterator_error (xs : list string) :
  rows (Iterator collections_query) = scanned <$> xs ->
  fst Collections
  = (match xs with [] => None | _ :: _ => Some xs end, inil).
Proof.
  intros Hr. unfold Postgresql.Collections. simpl.
  rewrite Hr, scan_all_scanned. destruct xs; reflexivity.
Qed.

(** X15. [TableExists] looks at the first row only: it returns nil
    exactly when there is a first row and it scans; with no row at all
    it returns [db.ErrCollectionDoesNotExist], whatever error the
    iterator may hold. *)
Theorem TableExists_first_row (name : string) :
  let iter := Iterator (table_exists_query Name name) in
  (fst (TableExists name) = inil <->
   exists x rest, rows iter = (x, inil) :: rest) /\
  (rows iter = [] ->
   fst (TableExists name) = dyn ErrCollectionDoesNotExist).
Proof.
  intros iter. unfold Postgresql.TableExists. fold iter. simpl. split.
  - destruct (rows iter) as [| [x [| e]] rest]; split;
      try discriminate; try reflexivity.
    + intros (? & ? & [=]).
    + intros _. eauto.
    + intros (? & ? & [=]).
  - intros ->. reflexivity.
Qed.

End Queries.

Lemma PrimaryKeys_complete_witness :
  fst (Postgresql.PrimaryKeys Fixtures.fake_Quote
         (Fixtures.fake_Iterator [("id", inil); ("tenant", inil)] inil)
         "public.users")
  = (Some ["id"; "tenant"], inil).
Proof.
  apply (proj2 (PrimaryKeys_complete Fixtures.fake_Quote
                  (Fixtures.fake_Iterator [("id", inil); ("tenant", inil)] inil)
                  "public.users" ["id"; "tenant"])).
  split; reflexivity.
Defined.

Lemma PrimaryKeys_failure_witness :
  fst (Postgresql.PrimaryKeys Fixtures.fake_Quote
         (Fixtures.fake_Iterator
            [("id", inil); ("", dyn "converting NULL to string"); ("b", inil)]
            inil)
         "users")
  = (None, dyn "converting NULL to string").
Proof.
  apply (proj1 (PrimaryKeys_failure Fixtures.fake_Quote
                  (Fixtures.fake_Iterator
                     [("id", inil); ("", dyn "converting NULL to string");
                      ("b", inil)] inil)
                  "users")
           ["id"] "" "converting NULL to string" [("b", inil)]).
  reflexivity.
Defined.

Lemma Collections_ignores_iterator_error_witness :
  fst (Postgresql.Collections
         (Fixtures.fake_Iterator [("users", inil); ("orders", inil)]
            (dyn "connection reset by peer")))
  = (Some ["users"; "orders"], inil).
Proof.
  apply (Collections_ignores_iterator_error
           (Fixtures.fake_Iterator [("users", inil); ("orders", inil)]
              (dyn "connection reset by peer"))
           ["users"; "orders"]).
  reflexivity.
Defined.

Lemma TableExists_first_row_witness :
  fst (Postgresql.TableExists "shop" "upper: collection does not exist"
         (Fixtures.fake_Iterator [] (dyn "connection reset by peer")) "users")
  = dyn "upper: collection does not exist".
Proof.
  apply (proj2 (TableExists_first_row "shop" "upper: collection does not exist"
                  (Fixtures.fake_Iterator [] (dyn "connection reset by peer"))
                  "users")).
  reflexivity.
Defined.

End PostgresqlFacts.

(** * Properties of the MS SQL [Insert] *)
Module MssqlFacts.
Import Mssql.

Section Scan.
Context {V : Type}.
Implicit Types (pKey names : list string) (vals : list (iface V)).

(** The inner loop never runs over an empty key list. *)
Lemma scan_columns_no_keys names vals i b :
  scan_columns [] names vals i b = Done b.
Proof.
  revert i. induction names as [| c names IH]; intros i; simpl.
  - reflexivity.
  - apply IH.
Qed.

Lemma scan_pKey_value pKey c (x : iface V) b :
  scan_pKey pKey c (Some x) b
  = Done (match x with
          | dyn _ => if decide (c ∈ pKey) then true else b
          | inil => b
          end).
Proof.
  induction pKey as [| k pKey IH]; cbn [scan_pKey].
  - destruct x; [reflexivity |].
    rewrite decide_False by apply not_elem_of_nil. reflexivity.
  - destruct (String.eqb k c) eqn:Hk.
    + apply String.eqb_eq in Hk as ->. destruct x as [| y].
      * exact IH.
      * rewrite decide_True by left. reflexivity.
    + apply String.eqb_neq in Hk. rewrite IH. destruct x; [reflexivity |].
      destruct (decide (c ∈ pKey)) as [Hc | Hc].
      * rewrite decide_True by (right; exact Hc). reflexivity.
      * rewrite decide_False; [reflexivity |].
        intros [-> | H]%elem_of_cons; [apply Hk; reflexivity | exact (Hc H)].
Qed.

Lemma scan_pKey_absent pKey c b :
  c ∉ pKey -> scan_pKey pKey c (@None (iface V)) b = Done b.
Proof.
  induction pKey as [| k pKey IH]; cbn [scan_pKey]; intros Hc.
  - reflexivity.
  - destruct (String.eqb k c) eqn:Hk.
    + apply String.eqb_eq in Hk as ->. exfalso. apply Hc. left.
    + apply IH. intros H. apply Hc. right. exact H.
Qed.

Lemma scan_pKey_panics pKey c b :
  c ∈ pKey -> scan_pKey pKey c (@None (iface V)) b = Panic.
Proof.
  induction pKey as [| k pKey IH]; cbn [scan_pKey]; intros Hc.
  - inversion Hc.
  - destruct (String.eqb k c) eqn:Hk; [reflexivity |].
    apply String.eqb_neq in Hk. apply IH.
    apply elem_of_cons in Hc as [-> | Hc]; [exfalso; apply Hk; reflexivity |].
    exact Hc.
Qed.

(** What the two loops compute when they finish: the flag is set
    exactly when it was set before or some column from index [i] on is
    a key column with a non-nil value. *)
Lemma scan_columns_Done pKey names vals i b b' :
  scan_columns pKey names vals i b = Done b' ->
  (b' = true <->
   b = true \/
   exists j c x, names !! j = Some c /\ c ∈ pKey /\
                 vals !! (i + j) = Some (dyn x)).
Proof.
  revert i b. induction names as [| c names IH]; intros i b; simpl.
  - intros [= ->]. split; [auto |].
    intros [H | (j & c & x & H & _)]; [exact H | discriminate].
  - destruct (scan_pKey pKey c (vals !! i) b) as [b1 |] eqn:Hin;
      [| discriminate].
    intros Hrest. rewrite (IH _ _ Hrest). clear IH Hrest.
    destruct (vals !! i) as [x |] eqn:Hx.
    + rewrite scan_pKey_value in Hin. injection Hin as <-. split.
      * intros [H | (j & c' & y & Hj & Hc & Hy)].
        -- destruct x as [| y]; [left; exact H |].
           case_decide as Hc; [| left; exact H].
           right. exists 0, c, y. rewrite Nat.add_0_r. auto.
        -- right. exists (S j), c', y.
           replace (i + S j) with (S i + j) by lia. auto.
      * intros [H | (j & c' & y & Hj & Hc & Hy)].
        -- left. rewrite H. destruct x; [| case_decide]; reflexivity.
        -- destruct j as [| j].
           ++ left. injection Hj as <-. rewrite Nat.add_0_r, Hx in Hy.
              injection Hy as ->. rewrite decide_True by exact Hc.
              reflexivity.
           ++ right. exists j, c', y.
              replace (S i + j) with (i + S j) by lia. auto.
    + destruct (decide (c ∈ pKey)) as [Hc | Hc].
      * rewrite (scan_pKey_panics _ _ _ Hc) in Hin. discriminate.
      * rewrite (scan_pKey_absent _ _ _ Hc) in Hin. injection Hin as <-.
        split.
        -- intros [H | (j & c' & y & Hj & Hc' & Hy)]; [left; exact H |].
           right. exists (S j), c', y.
           replace (i + S j) with (S i + j) by lia. auto.
        -- intros [H | (j & c' & y & Hj & Hc' & Hy)]; [left; exact H |].
           destruct j as [| j].
           ++ rewrite Nat.add_0_r, Hx in Hy. discriminate.
           ++ right. exists j, c', y.
              replace (S i + j) with (i + S j) by lia. auto.
Qed.

(** With a value for every column the loops finish. *)
Lemma scan_columns_total pKey names vals i b :
  i + length names <= length vals ->
  exists b', scan_columns pKey names vals i b = Done b'.
Proof.
  revert i b. induction names as [| c names IH]; intros i b; simpl; intros Hl.
  - exists b. reflexivity.
  - destruct (lookup_lt_is_Some_2 vals i) as [x Hx]; [lia |].
    rewrite Hx, scan_pKey_value. apply IH. lia.
Qed.

Lemma scan_columns_explicit pKey names vals b :
  scan_columns pKey names vals 0 false = Done b ->
  (b = true <-> has_explicit_key pKey names vals).
Proof.
  intros H. rewrite (scan_columns_Done _ _ _ _ _ _ H).
  unfold has_explicit_key. split.
  - intros [H' | H']; [discriminate | exact H'].
  - intros H'. right. exact H'.
Qed.

(** ** The shape of the returned key (lines 135-140) *)

Lemma key_of_single k (km : gmap string (iface V)) :
  dom km = ({[ k ]} : gset string) ->
  exists x, km !! k = Some x /\ key_of [k] km = Plain x.
Proof.
  intros Hd.
  assert (Hk : is_Some (km !! k)).
  { apply elem_of_dom. rewrite Hd. apply elem_of_singleton. reflexivity. }
  destruct Hk as [x Hx]. exists x. split; [exact Hx |].
  unfold key_of. rewrite <- size_dom, Hd, size_singleton. simpl.
  rewrite Hx. reflexivity.
Qed.

Lemma key_of_compound pKey (km : gmap string (iface V)) :
  NoDup pKey -> 2 <= length pKey ->
  dom km = (list_to_set pKey : gset string) ->
  key_of pKey km = Compound km.
Proof.
  intros Hnd Hlen Hd. unfold key_of.
  rewrite <- size_dom, Hd, size_list_to_set by exact Hnd.
  destruct (length pKey) as [| [| n]]; [lia | lia | reflexivity].
Qed.

Lemma key_of_shape pKey (km : gmap string (iface V)) :
  NoDup pKey -> dom km = (list_to_set pKey : gset string) ->
  (forall k, pKey = [k] ->
             exists x, km !! k = Some x /\ key_of pKey km = Plain x) /\
  (2 <= length pKey ->
   key_of pKey km = Compound km /\
   forall k, k ∈ pKey -> is_Some (km !! k)).
Proof.
  intros Hnd Hd. split.
  - intros k ->. apply key_of_single. rewrite Hd. simpl.
    apply right_id_L. apply _.
  - intros Hlen. split; [apply key_of_compound; assumption |].
    intros k Hk. apply elem_of_dom. rewrite Hd.
    apply elem_of_list_to_set, Hk.
Qed.

(** When the loops stop with a panic: some key column from index [i] on
    has no slot among the values. *)
Lemma scan_columns_Panic pKey names vals i b :
  scan_columns pKey names vals i b = Panic <->
  exists j c, names !! j = Some c /\ c ∈ pKey /\ vals !! (i + j) = None.
Proof.
  revert i b. induction names as [| c names IH]; intros i b; simpl.
  - split; [discriminate | intros (j & c & H & _); discriminate].
  - destruct (vals !! i) as [x |] eqn:Hx.
    + rewrite scan_pKey_value, IH. split.
      * intros (j & c' & Hj & Hc & Hv). exists (S j), c'.
        replace (i + S j) with (S i + j) by lia. auto.
      * intros (j & c' & Hj & Hc & Hv). destruct j as [| j].
        -- rewrite Nat.add_0_r, Hx in Hv. discriminate.
        -- exists j, c'. replace (S i + j) with (i + S j) by lia. auto.
    + destruct (decide (c ∈ pKey)) as [Hc | Hc].
      * rewrite (scan_pKey_panics _ _ _ Hc). split; [intros _ | reflexivity].
        exists 0, c. rewrite Nat.add_0_r. auto.
      * rewrite (scan_pKey_absent _ _ _ Hc), IH. split.
        -- intros (j & c' & Hj & Hc' & Hv). exists (S j), c'.
           replace (i + S j) with (S i + j) by lia. auto.
        -- intros (j & c' & Hj & Hc' & Hv). destruct j as [| j].
           ++ injection Hj as <-. contradiction.
           ++ exists j, c'. replace (S i + j) with (i + S j) by lia. auto.
Qed.

Lemma scan_columns_missing pKey names vals :
  scan_columns pKey names vals 0 false = Panic <->
  missing_value pKey names vals.
Proof. rewrite scan_columns_Panic. reflexivity. Qed.

End Scan.

Section Insert.
Context {Item V E Row World : Type}.
Context (sqlbuilder_Map : Item -> list string * list (iface V) * iface E).
Context (PrimaryKeys : World -> list string * World).
Context (QueryRow : string -> string -> World -> Row * iface E * World).
Context (Scan : Row -> Z * iface E).
Context (Exec : string -> World -> iface E * World).
Context (inserter_Exec : inserter V -> World -> iface E * World).
Context (inserter_One :
           inserter V -> World -> gmap string (iface V) * iface E * World).

Local Abbreviation Insert :=
  (Mssql.Insert sqlbuilder_Map PrimaryKeys QueryRow Scan Exec
     inserter_Exec inserter_One).
Local Abbreviation explicit_keys := (Mssql.explicit_keys QueryRow Scan Exec).
Local Abbreviation insert_row := (Mssql.insert_row inserter_Exec inserter_One).
Local Abbreviation event := (Mssql.event V E Row).
Local Abbreviation threads :=
  (Mssql.threads PrimaryKeys QueryRow Exec inserter_Exec inserter_One).

Implicit Types (t : table) (s : World) (evs : list event).

Local Arguments identity_on : simpl never.
Local Arguments identity_off : simpl never.
Local Arguments count_identity_columns : simpl never.
Local Arguments scan_columns : simpl never.
Local Arguments key_of : simpl never.

(** Unfolds a run of [Insert] and splits it along the answers of the
    collaborators. *)
Local Ltac answers :=
  repeat
    (simpl;
     match goal with
     | |- context [sqlbuilder_Map ?i] =>
         destruct (sqlbuilder_Map i) as [[? ?] [| ?]] eqn:?
     | |- context [PrimaryKeys ?s] => destruct (PrimaryKeys s) as [? ?] eqn:?
     | |- context [scan_columns ?p ?n ?v ?i ?b] =>
         destruct (scan_columns p n v i b) as [[|] |] eqn:?
     | |- context [QueryRow ?q ?a ?s] =>
         destruct (QueryRow q a s) as [[? [| ?]] ?] eqn:?
     | |- context [Scan ?r] => destruct (Scan r) as [? [| ?]] eqn:?
     | |- context [(0 <? ?z)%Z] => destruct (0 <? z)%Z eqn:?
     | |- context [Exec ?q ?s] => destruct (Exec q s) as [[| ?] ?] eqn:?
     | |- context [inserter_Exec ?q ?s] =>
         destruct (inserter_Exec q s) as [[| ?] ?] eqn:?
     | |- context [inserter_One ?q ?s] =>
         destruct (inserter_One q s) as [[? [| ?]] ?] eqn:?
     | |- context [(length ?p <? 1)%nat] => destruct p as [| ? ?]
     end).

Local Ltac run t :=
  destruct t as [? [[|] |]];
  unfold Mssql.Insert, Mssql.explicit_keys, Mssql.detect_identity,
    Mssql.insert_row, bind, ret, get_table, set_hasIdentityColumn,
    call_PrimaryKeys, call_QueryRow, call_Exec, call_inserter_Exec,
    call_inserter_One;
  answers.

(** C8. Every error that [Insert] returns comes with a nil key. *)
Theorem Insert_error_without_key item t s r e w' evs :
  Insert item (t, s) = (Done (r, dyn e), w', evs) -> r = Plain inil.
Proof.
  run t; intros H; simplify_eq; reflexivity.
Qed.

Local Ltac unfold_run :=
  unfold Mssql.Insert, Mssql.explicit_keys, Mssql.detect_identity,
    Mssql.insert_row, bind, ret, get_table, set_hasIdentityColumn,
    call_PrimaryKeys, call_QueryRow, call_Exec, call_inserter_Exec,
    call_inserter_One.

(** C10. Without primary keys [Insert] executes the statement with no
    RETURNING clause and nothing else; when that succeeds it returns a
    nil key and a nil error. *)
Theorem Insert_without_primary_keys item t s names vals s1 s2 :
  sqlbuilder_Map item = (names, vals, inil) ->
  PrimaryKeys s = ([], s1) ->
  inserter_Exec (mkInserter (name t) names vals []) s1 = (inil, s2) ->
  Insert item (t, s)
  = (Done (Plain inil, inil), (t, s2),
     [EvPrimaryKeys [];
      EvInsertExec (mkInserter (name t) names vals []) inil]).
Proof.
  intros HMap HPK HExec. unfold_run.
  rewrite HMap. simpl. rewrite HPK. simpl.
  rewrite scan_columns_no_keys. simpl. rewrite HExec. reflexivity.
Qed.

(** C3. Once [SET IDENTITY_INSERT .. ON] has succeeded, [Insert]
    returns, and the last thing it does before returning is to execute
    [SET IDENTITY_INSERT .. OFF], whether the insert succeeded or not:
    the statement is sent to the backend in the state that the calls
    before it have left, and the state it leaves is the one [Insert]
    ends in. *)
Theorem Insert_restores_identity_insert item t s out w' evs :
  Insert item (t, s) = (out, w', evs) ->
  EvExec (identity_on (name t)) inil ∈ evs ->
  exists before err s_mid,
    evs = (before ++ [EvExec (identity_off (name t)) err])%list /\
    EvExec (identity_on (name t)) inil ∈ before /\
    threads s before s_mid /\
    Exec (identity_off (name t)) s_mid = (err, snd w') /\
    exists res, out = Done res.
Proof.
  run t; intros H Hon; simplify_eq; simpl in *;
    first
      [ solve
          [ refine (ex_intro _ [_; _; _] (ex_intro _ _ (ex_intro _ _ _)));
            split; [reflexivity |];
            split; [set_solver |];
            split; [simpl; repeat (eexists; split; [eassumption |]);
                    reflexivity |];
            split; [eassumption | eexists; reflexivity] ]
      | solve
          [ refine (ex_intro _ [_; _; _; _] (ex_intro _ _ (ex_intro _ _ _)));
            split; [reflexivity |];
            split; [set_solver |];
            split; [simpl; repeat (eexists; split; [eassumption |]);
                    reflexivity |];
            split; [eassumption | eexists; reflexivity] ]
      | exfalso;
        repeat (apply elem_of_cons in Hon as [Hon | Hon]; [discriminate |]);
        apply elem_of_nil in Hon; exact Hon ].
Qed.

(** C4. A successful [Insert] into a table with primary keys fetches
    the row of generated keys with a RETURNING clause over those keys;
    with a single key column it returns the value of that column, with
    several the map from every key column to its value. *)
Theorem Insert_key_shape item t s pKey s1 r w' evs :
  returns_requested inserter_One ->
  PrimaryKeys s = (pKey, s1) -> NoDup pKey -> pKey <> [] ->
  Insert item (t, s) = (Done (r, inil), w', evs) ->
  exists q km,
    EvInsertOne q km inil ∈ evs /\
    into q = name t /\ returning q = pKey /\
    (forall k, pKey = [k] -> exists x, km !! k = Some x /\ r = Plain x) /\
    (2 <= length pKey ->
     r = Compound km /\ forall k, k ∈ pKey -> is_Some (km !! k)).
Proof.
  intros Hreq HPK Hnd Hne. revert HPK.
  run t; intros HPK H; simplify_eq;
    match goal with
    | Hone : inserter_One ?q _ = (?km, inil, _) |- _ =>
        exists q, km; specialize (Hreq _ _ _ _ Hone)
    end;
    (split; [set_solver |]); (split; [reflexivity |]);
    (split; [reflexivity |]); apply key_of_shape; assumption.
Qed.

Lemma no_identity_event evs :
  Forall (fun ev => identity_event ev = false) evs ->
  ~ Exists (fun ev : event => identity_event ev = true) evs.
Proof.
  induction 1 as [| ev evs Hev _ IH]; intros Hex.
  - inversion Hex.
  - inversion Hex as [? ? Hhd | ? ? Htl]; subst.
    + rewrite Hev in Hhd. discriminate.
    + exact (IH Htl).
Qed.

(** C6. With a value for every column, [Insert] returns, and it turns
    to the identity column exactly when some key column of the item
    has a non-nil value.  Unless the table is already known to have no
    identity column, a statement of the identity handling is issued if
    and only if there is such a column.  With one, the first step after
    the key lookup is the query on [sys.identity_columns] when the
    answer is not known yet, the switch to ON when the table is known
    to have an identity column, and nothing when it is known to have
    none; without one, neither statement is issued and what the table
    knows stays untouched. *)
Theorem identity_handling_iff_explicit_key
    item t s names vals pKey s1 out w' evs :
  sqlbuilder_Map item = (names, vals, inil) ->
  PrimaryKeys s = (pKey, s1) ->
  length names <= length vals ->
  Insert item (t, s) = (out, w', evs) ->
  (exists res, out = Done res) /\
  (hasIdentityColumn t <> Some false ->
   (Exists (fun ev => identity_event ev = true) evs <->
    has_explicit_key pKey names vals)) /\
  (has_explicit_key pKey names vals ->
   match hasIdentityColumn t with
   | None =>
       exists row err rest,
         evs = EvPrimaryKeys pKey
               :: EvQueryRow count_identity_columns (name t) row err :: rest
   | Some true =>
       exists err rest,
         evs = EvPrimaryKeys pKey
               :: EvExec (identity_on (name t)) err :: rest
   | Some false => Forall (fun ev => identity_event ev = false) evs
   end) /\
  (~ has_explicit_key pKey names vals ->
   Forall (fun ev => identity_event ev = false) evs /\
   hasIdentityColumn (fst w') = hasIdentityColumn t).
Proof.
  intros HMap HPK Hlen.
  destruct (scan_columns_total pKey names vals 0 false Hlen) as [b Hb].
  pose proof (scan_columns_explicit _ _ _ _ Hb) as Hiff.
  destruct t as [n c]. unfold_run.
  rewrite HMap. simpl. rewrite HPK. simpl. rewrite Hb.
  destruct b.
  - assert (Hyes : has_explicit_key pKey names vals) by (apply Hiff; reflexivity).
    destruct c as [[|] |]; answers; intros H; simplify_eq; simpl;
      (split; [eexists; reflexivity |]);
      (split;
       [ intros Hc; split; [intros _; exact Hyes | intros _];
         first [ apply Exists_cons_tl, Exists_cons_hd; reflexivity
               | exfalso; apply Hc; reflexivity ]
       | ]);
      (split; [| intros Hno; contradiction]); intros _;
      first [ do 3 eexists; reflexivity
            | do 2 eexists; reflexivity
            | repeat constructor ].
  - assert (Hno : ~ has_explicit_key pKey names vals).
    { intros Hyes. apply Hiff in Hyes. discriminate. }
    answers; intros H; simplify_eq; simpl;
      (split; [eexists; reflexivity |]);
      (split;
       [ intros _; split; [| intros Hyes; contradiction];
         intros Hex; exfalso; revert Hex;
         apply no_identity_event; repeat constructor
       | ]);
      (split; [intros Hyes; contradiction |]); intros _;
      (split; [repeat constructor | reflexivity]).
Qed.

(** Reads a membership in a concrete trace as the list of its cases. *)
Local Ltac in_trace H :=
  repeat (apply elem_of_cons in H as [H | H];
          [try discriminate; simplify_eq |]);
  try (apply elem_of_nil in H; contradiction).

Lemma append_inj_l (a b c : string) : a +:+ b = a +:+ c -> b = c.
Proof.
  induction a as [| x a IH]; simpl; [auto |].
  intros [= H]. exact (IH H).
Qed.

Lemma identity_on_off (n : string) : identity_on n <> identity_off n.
Proof.
  unfold identity_on, identity_off. intros H.
  apply append_inj_l, append_inj_l in H. discriminate.
Qed.

(** The trace of a run is the calls that were made: each answer in it
    is the collaborator's, in the state the calls before it have left,
    and the last state is the one the run ends in. *)
Lemma Insert_threads item t s out w' evs :
  Insert item (t, s) = (out, w', evs) -> threads s evs (snd w').
Proof.
  run t; intros H; simplify_eq; simpl;
    repeat (eexists; split; [eassumption |]); reflexivity.
Qed.

(** X16. The statements that [Insert] executes with [Exec] are, in
    order, none at all, or a failed [SET IDENTITY_INSERT .. ON] alone,
    or a successful ON followed by one OFF: OFF never runs without a
    successful ON before it, and neither runs twice.  They are really
    executed: the trace is the sequence of calls made on the backend,
    a failed ON leaves the state [Insert] ends in, and so does the OFF
    that follows a successful ON. *)
Theorem Insert_toggles item t s out w' evs :
  Insert item (t, s) = (out, w', evs) ->
  threads s evs (snd w') /\
  (List.filter toggle_event evs = [] \/
   (exists e s0,
      List.filter toggle_event evs
      = [EvExec (identity_on (name t)) (dyn e)] /\
      Exec (identity_on (name t)) s0 = (dyn e, snd w')) \/
   (exists err s0 s1 s2,
      List.filter toggle_event evs
      = [EvExec (identity_on (name t)) inil;
         EvExec (identity_off (name t)) err] /\
      Exec (identity_on (name t)) s0 = (inil, s1) /\
      Exec (identity_off (name t)) s2 = (err, snd w'))).
Proof.
  intros H. split; [exact (Insert_threads _ _ _ _ _ _ H) |].
  revert H.
  run t; intros H; simplify_eq; simpl;
    first [ left; reflexivity
          | right; left; do 2 eexists; split; [reflexivity | eassumption]
          | right; right; do 4 eexists; split; [reflexivity |];
            split; eassumption ].
Qed.

(** X17. Once the insert statement has run, what [Insert] returns is
    what that statement answered: its error with a nil key, or on
    success nil (without RETURNING) or the key read from the row.  What
    the restoring OFF statement answers afterwards is never reported. *)
Theorem Insert_returns_statement_answer item t s out w' evs :
  Insert item (t, s) = (out, w', evs) ->
  (forall q err, EvInsertExec q err ∈ evs -> out = Done (Plain inil, err)) /\
  (forall q km err,
     EvInsertOne q km err ∈ evs ->
     out = Done (match err with
                 | inil => key_of (returning q) km
                 | dyn _ => Plain inil
                 end, err)).
Proof.
  run t; intros H; simplify_eq;
    (split; [intros q err Hin | intros q km err Hin]);
    in_trace Hin; reflexivity.
Qed.

(** X18. When the query on [sys.identity_columns] fails, or its row
    does not scan, [Insert] returns that error with a nil key, executes
    neither a toggle nor the insert statement, and still does not know
    whether the table has an identity column, so that the next [Insert]
    asks again. *)
Theorem Insert_detection_fails item t s out w' evs q a row qerr e :
  Insert item (t, s) = (out, w', evs) ->
  EvQueryRow q a row qerr ∈ evs ->
  qerr = dyn e \/ (qerr = inil /\ snd (Scan row) = dyn e) ->
  out = Done (Plain inil, dyn e) /\
  List.filter toggle_event evs = [] /\
  List.filter insert_event evs = [] /\
  hasIdentityColumn (fst w') = None.
Proof.
  intros H Hin Hfail. revert H.
  run t; intros H; simplify_eq; in_trace Hin;
    destruct Hfail as [Hq | [Hq Hs]]; simplify_eq;
    try (match goal with
         | Hscan : Scan ?r = _, Hs : snd (Scan ?r) = _ |- _ =>
             rewrite Hscan in Hs; simpl in Hs
         end; simplify_eq);
    repeat split; reflexivity.
Qed.

(** X19. When [SET IDENTITY_INSERT .. ON] fails, [Insert] returns that
    error with a nil key and executes neither the insert statement nor
    the OFF statement. *)
Theorem Insert_toggle_fails item t s out w' evs e :
  Insert item (t, s) = (out, w', evs) ->
  EvExec (identity_on (name t)) (dyn e) ∈ evs ->
  out = Done (Plain inil, dyn e) /\
  List.filter insert_event evs = [] /\
  forall err, EvExec (identity_off (name t)) err ∉ evs.
Proof.
  run t; intros H Hin; simplify_eq; in_trace Hin;
    try (exfalso; eapply identity_on_off; eassumption);
    try (exfalso; eapply identity_on_off; symmetry; eassumption);
    (split; [reflexivity |]); (split; [reflexivity |]);
    intros err Hoff; in_trace Hoff;
    exfalso; eapply identity_on_off; eassumption.
Qed.

(** What a run leaves in the table: the name as it was, and an answer
    about the identity column once there is one. *)
Lemma Insert_table item t s out w' evs :
  Insert item (t, s) = (out, w', evs) ->
  name (fst w') = name t /\
  (forall b, hasIdentityColumn t = Some b ->
             hasIdentityColumn (fst w') = Some b /\
             List.filter query_event evs = [] /\
             (b = false -> List.filter toggle_event evs = [])).
Proof.
  run t; intros H; simplify_eq; (split; [reflexivity |]);
    intros b Hb; simplify_eq; repeat split; try reflexivity;
    intros; discriminate.
Qed.

Lemma Insert_detected item t s out w' evs q a row n :
  Insert item (t, s) = (out, w', evs) ->
  EvQueryRow q a row inil ∈ evs -> Scan row = (n, inil) ->
  hasIdentityColumn t = None /\
  hasIdentityColumn (fst w') = Some (0 <? n)%Z /\
  ((n <= 0)%Z -> List.filter toggle_event evs = []) /\
  ((0 < n)%Z -> exists err, EvExec (identity_on (name t)) err ∈ evs).
Proof.
  intros H Hin Hscan. revert H.
  run t; intros H; simplify_eq; in_trace Hin;
    match goal with
    | H1 : Scan ?r = _, H2 : Scan ?r = _ |- _ => rewrite H1 in H2
    end; simplify_eq; try congruence;
    repeat match goal with
           | Hb : (0 <? _)%Z = true |- _ => apply Z.ltb_lt in Hb
           | Hb : (0 <? _)%Z = false |- _ => apply Z.ltb_ge in Hb
           end;
    simpl; (split; [reflexivity |]); (split; [reflexivity |]);
    split; intros Hn; try reflexivity; try lia;
    eexists; apply (list_elem_of_lookup_2 _ 2); reflexivity.
Qed.

(** X20. A table that already knows whether it has an identity column
    is not asked again: [Insert] issues no query on
    [sys.identity_columns], keeps the answer and the name, and when the
    answer is no executes no [SET IDENTITY_INSERT] either. *)
Theorem Insert_uses_cached_answer item t s out w' evs b :
  Insert item (t, s) = (out, w', evs) ->
  hasIdentityColumn t = Some b ->
  name (fst w') = name t /\
  hasIdentityColumn (fst w') = Some b /\
  List.filter query_event evs = [] /\
  (b = false -> List.filter toggle_event evs = []).
Proof.
  intros H Hb. destruct (Insert_table _ _ _ _ _ _ H) as [Hn Hc].
  split; [exact Hn | exact (Hc b Hb)].
Qed.

(** X21. When the query on [sys.identity_columns] succeeds and its row
    scans to the count [n], the table remembers whether [n] is
    positive; with a count of zero or less no [SET IDENTITY_INSERT] is
    executed, with a positive one the ON statement is. *)
Theorem Insert_remembers_detection item t s out w' evs q a row n :
  Insert item (t, s) = (out, w', evs) ->
  EvQueryRow q a row inil ∈ evs -> Scan row = (n, inil) ->
  hasIdentityColumn (fst w') = Some (0 <? n)%Z /\
  ((n <= 0)%Z -> List.filter toggle_event evs = []) /\
  ((0 < n)%Z -> exists err, EvExec (identity_on (name t)) err ∈ evs).
Proof.
  intros H Hin Hscan.
  exact (proj2 (Insert_detected _ _ _ _ _ _ _ _ _ _ H Hin Hscan)).
Qed.

(** X22. [Insert] executes the insert statement at most once, and the
    statement it executes names the table and carries the columns and
    values of the item exactly as [sqlbuilder.Map] gave them, with no
    RETURNING clause when the table has no primary key and with the
    primary keys in it otherwise. *)
Theorem Insert_statement item t s names vals pKey s1 out w' evs :
  sqlbuilder_Map item = (names, vals, inil) ->
  PrimaryKeys s = (pKey, s1) ->
  Insert item (t, s) = (out, w', evs) ->
  List.filter insert_event evs = [] \/
  (exists err,
     pKey = [] /\
     List.filter insert_event evs
     = [EvInsertExec (mkInserter (name t) names vals []) err]) \/
  (exists km err,
     pKey <> [] /\
     List.filter insert_event evs
     = [EvInsertOne (mkInserter (name t) names vals pKey) km err]).
Proof.
  intros HMap HPK. revert HMap HPK.
  run t; intros HMap HPK H; simplify_eq; simpl;
    first [ left; reflexivity
          | right; left; eexists; split; reflexivity
          | right; right; do 2 eexists; split; [discriminate | reflexivity] ].
Qed.

(** X23. [Insert] panics exactly when some column named in the
    primary-key list has no slot in the values that [sqlbuilder.Map]
    returned, and it does so right after the key lookup, before any
    statement is sent and without touching the table. *)
Theorem Insert_panics item t s names vals pKey s1 out w' evs :
  sqlbuilder_Map item = (names, vals, inil) ->
  PrimaryKeys s = (pKey, s1) ->
  Insert item (t, s) = (out, w', evs) ->
  (out = Panic <-> missing_value pKey names vals) /\
  (out = Panic -> w' = (t, s1) /\ evs = [EvPrimaryKeys pKey]).
Proof.
  intros HMap HPK.
  destruct (scan_columns pKey names vals 0 false) as [b |] eqn:Hscan.
  - assert (Hno : ~ missing_value pKey names vals).
    { intros Hm. apply scan_columns_missing in Hm. congruence. }
    destruct t as [n c]. unfold_run.
    rewrite HMap. simpl. rewrite HPK. simpl. rewrite Hscan.
    destruct b; destruct c as [[|] |]; answers; intros H; simplify_eq;
      (split; [split; [intros [=] | intros Hm; contradiction]
              | intros [=]]).
  - assert (Hyes : missing_value pKey names vals)
      by (apply scan_columns_missing, Hscan).
    unfold_run. rewrite HMap. simpl. rewrite HPK. simpl. rewrite Hscan.
    intros H. simplify_eq.
    split; [split; [intros _; exact Hyes | reflexivity] |].
    intros _. split; reflexivity.
Qed.

(** X24. After an [Insert] on a table fresh from [newTable] has found
    out whether the table has an identity column, no later [Insert] on
    that table queries [sys.identity_columns] again: the answer found
    by the first is the one the table keeps. *)
Theorem second_Insert_reuses_detection
    Name item1 item2 s out1 t1 s1 evs1 q a row n out2 w2 evs2 :
  Insert item1 (newTable Name, s) = (out1, (t1, s1), evs1) ->
  EvQueryRow q a row inil ∈ evs1 -> Scan row = (n, inil) ->
  Insert item2 (t1, s1) = (out2, w2, evs2) ->
  List.filter query_event evs2 = [] /\
  Mssql.Name (fst w2) = Name /\
  hasIdentityColumn (fst w2) = Some (0 <? n)%Z.
Proof.
  intros H1 Hin Hscan H2.
  destruct (Insert_detected _ _ _ _ _ _ _ _ _ _ H1 Hin Hscan)
    as (_ & Hc1 & _).
  destruct (Insert_table _ _ _ _ _ _ H1) as [Hn1 _].
  destruct (Insert_table _ _ _ _ _ _ H2) as [Hn2 Hc2].
  destruct (Hc2 _ Hc1) as (Hc & Hq & _).
  split; [exact Hq |]. split; [| exact Hc].
  unfold Mssql.Name. rewrite Hn2. exact Hn1.
Qed.

End Insert.

Lemma fake_returns_requested :
  returns_requested (E := string) (Fixtures.fake_inserter_One false).
Proof.
  intros q s km s' [= <- _]. rewrite dom_list_to_map_L.
  f_equal. rewrite <- list_fmap_compose. apply list_fmap_id.
Qed.

Lemma Insert_error_without_key_witness :
  exists r e w' evs,
    Fixtures.fake_Insert ["id"] 1 true [("id", dyn 7%Z)] (Fixtures.users, 0)
    = (Done (r, dyn e), w', evs) /\
    r = Plain inil.
Proof.
  destruct (Fixtures.fake_Insert ["id"] 1 true [("id", dyn 7%Z)]
              (Fixtures.users, 0)) as [[out w'] evs] eqn:Hrun.
  assert (Hout : out = Done (Plain inil,
                             dyn "Violation of PRIMARY KEY constraint")).
  { apply (f_equal (fun x => fst (fst x))) in Hrun. symmetry. exact Hrun. }
  subst out.
  exists (Plain inil), "Violation of PRIMARY KEY constraint", w', evs.
  split; [reflexivity |].
  apply (Insert_error_without_key Fixtures.fake_Map
           (Fixtures.fake_PrimaryKeys ["id"]) (Fixtures.fake_QueryRow 1)
           Fixtures.fake_Scan Fixtures.fake_Exec
           (Fixtures.fake_inserter_Exec true)
           (Fixtures.fake_inserter_One true)
           [("id", dyn 7%Z)] Fixtures.users 0 (Plain inil)
           "Violation of PRIMARY KEY constraint" w' evs Hrun).
Defined.

Lemma Insert_without_primary_keys_witness :
  Fixtures.fake_Insert [] 0 false [("name", dyn 5%Z)] (Fixtures.users, 0)
  = (Done (Plain inil, inil), (Fixtures.users, 1),
     [EvPrimaryKeys [];
      EvInsertExec (mkInserter "users" ["name"] [dyn 5%Z] []) inil]).
Proof.
  apply (Insert_without_primary_keys Fixtures.fake_Map
           (Fixtures.fake_PrimaryKeys []) (Fixtures.fake_QueryRow 0)
           Fixtures.fake_Scan Fixtures.fake_Exec
           (Fixtures.fake_inserter_Exec false)
           (Fixtures.fake_inserter_One false)
           [("name", dyn 5%Z)] Fixtures.users 0 ["name"] [dyn 5%Z] 0 1);
    reflexivity.
Defined.

Lemma Insert_restores_identity_insert_witness :
  exists before err,
    snd (Fixtures.toggling_Insert ["id"] 1 true [("id", dyn 7%Z)]
           (Fixtures.users, (0, false)))
    = (before ++ [EvExec "SET IDENTITY_INSERT users OFF" err])%list /\
    EvExec "SET IDENTITY_INSERT users ON" inil ∈ before /\
    snd (snd (snd (fst (Fixtures.toggling_Insert ["id"] 1 true
                          [("id", dyn 7%Z)] (Fixtures.users, (0, false))))))
    = false.
Proof.
  destruct (Fixtures.toggling_Insert ["id"] 1 true [("id", dyn 7%Z)]
              (Fixtures.users, (0, false)))
    as [[out w'] evs] eqn:Hrun.
  destruct (Insert_restores_identity_insert Fixtures.fake_Map
              (Fixtures.toggling_PrimaryKeys ["id"])
              (Fixtures.toggling_QueryRow 1)
              Fixtures.fake_Scan Fixtures.toggling_Exec
              (Fixtures.toggling_inserter_Exec true)
              (Fixtures.toggling_inserter_One true)
              [("id", dyn 7%Z)] Fixtures.users (0, false) out w' evs Hrun)
    as (before & err & s_mid & Hevs & Hon & _ & Hoff & _).
  - apply (f_equal snd) in Hrun. simpl in Hrun. subst evs.
    apply (list_elem_of_lookup_2 _ 2). reflexivity.
  - exists before, err. split; [exact Hevs |]. split; [exact Hon |].
    simpl. apply (f_equal (fun r => snd (snd r))) in Hoff.
    simpl in Hoff. symmetry. exact Hoff.
Defined.

Lemma Insert_key_shape_witness :
  exists q km,
    EvInsertOne (E := string) (Row := Z) q km inil
      ∈ snd (Fixtures.fake_Insert ["id"] 0 false [("name", dyn 5%Z)]
               (Fixtures.users, 3)) /\
    km !! "id" = Some (dyn 3%Z).
Proof.
  destruct (Insert_key_shape Fixtures.fake_Map
              (Fixtures.fake_PrimaryKeys ["id"]) (Fixtures.fake_QueryRow 0)
              Fixtures.fake_Scan Fixtures.fake_Exec
              (Fixtures.fake_inserter_Exec false)
              (Fixtures.fake_inserter_One false)
              [("name", dyn 5%Z)] Fixtures.users 3 ["id"] 3
              (Plain (dyn 3%Z)) (Fixtures.users, 4)
              [EvPrimaryKeys ["id"];
               EvInsertOne (mkInserter "users" ["name"] [dyn 5%Z] ["id"])
                 {[ "id" := dyn 3%Z ]} inil])
    as (q & km & Hev & _ & _ & Hone & _).
  - exact fake_returns_requested.
  - reflexivity.
  - apply NoDup_singleton.
  - discriminate.
  - vm_compute. reflexivity.
  - exists q, km. split; [exact Hev |].
    destruct (Hone "id" eq_refl) as (x & Hx & [= <-]). exact Hx.
Defined.

Lemma identity_handling_iff_explicit_key_witness :
  exists row err rest,
    snd (Fixtures.fake_Insert ["id"] 1 false [("id", dyn 7%Z)]
           (Fixtures.users, 0))
    = EvPrimaryKeys ["id"]
      :: EvQueryRow count_identity_columns "users" row err :: rest.
Proof.
  destruct (Fixtures.fake_Insert ["id"] 1 false [("id", dyn 7%Z)]
              (Fixtures.users, 0)) as [[out w'] evs] eqn:Hrun.
  apply (proj1 (proj2 (proj2 (identity_handling_iff_explicit_key Fixtures.fake_Map
           (Fixtures.fake_PrimaryKeys ["id"]) (Fixtures.fake_QueryRow 1)
           Fixtures.fake_Scan Fixtures.fake_Exec
           (Fixtures.fake_inserter_Exec false)
           (Fixtures.fake_inserter_One false)
           [("id", dyn 7%Z)] Fixtures.users 0 ["id"] [dyn 7%Z] ["id"] 0
           out w' evs eq_refl eq_refl (le_n 1) Hrun)))).
  exists 0, "id", 7%Z. split; [reflexivity |].
  split; [apply list_elem_of_here | reflexivity].
Defined.

Lemma Insert_toggles_witness :
  exists err,
    List.filter toggle_event
      (snd (Fixtures.toggling_Insert ["id"] 1 false [("id", dyn 7%Z)]
              (Fixtures.users, (0, false))))
    = [EvExec "SET IDENTITY_INSERT users ON" inil;
       EvExec "SET IDENTITY_INSERT users OFF" err] /\
    snd (snd (snd (fst (Fixtures.toggling_Insert ["id"] 1 false
                          [("id", dyn 7%Z)] (Fixtures.users, (0, false))))))
    = false.
Proof.
  destruct (Fixtures.toggling_Insert ["id"] 1 false [("id", dyn 7%Z)]
              (Fixtures.users, (0, false)))
    as [[out w'] evs] eqn:Hrun.
  destruct (Insert_toggles Fixtures.fake_Map
              (Fixtures.toggling_PrimaryKeys ["id"])
              (Fixtures.toggling_QueryRow 1)
              Fixtures.fake_Scan Fixtures.toggling_Exec
              (Fixtures.toggling_inserter_Exec false)
              (Fixtures.toggling_inserter_One false)
              [("id", dyn 7%Z)] Fixtures.users (0, false) out w' evs Hrun)
    as [_ [H | [(e & s0 & H & _) | (err & s0 & s1 & s2 & H & _ & Hoff)]]].
  - apply (f_equal snd) in Hrun. simpl in Hrun. subst evs. discriminate H.
  - apply (f_equal snd) in Hrun. simpl in Hrun. subst evs. discriminate H.
  - exists err. split; [exact H |].
    simpl. apply (f_equal (fun r => snd (snd r))) in Hoff.
    simpl in Hoff. symmetry. exact Hoff.
Defined.

Lemma Insert_returns_statement_answer_witness :
  EvExec "SET IDENTITY_INSERT users OFF" (dyn "connection lost")
    ∈ snd (Fixtures.scripted_Insert
             (Fixtures.Script ["id"] 1 false false true false)
             [("id", dyn 7%Z)] (Fixtures.users, 0)) /\
  fst (fst (Fixtures.scripted_Insert
              (Fixtures.Script ["id"] 1 false false true false)
              [("id", dyn 7%Z)] (Fixtures.users, 0)))
  = Done (Plain (dyn 0%Z), inil).
Proof.
  split; [apply (list_elem_of_lookup_2 _ 4); reflexivity |].
  destruct (Fixtures.scripted_Insert
              (Fixtures.Script ["id"] 1 false false true false)
              [("id", dyn 7%Z)] (Fixtures.users, 0))
    as [[out w'] evs] eqn:Hrun.
  simpl.
  rewrite (proj2 (Insert_returns_statement_answer _ _ _ _ _ _ _ _ _ _ _ _ _
                    Hrun)
             (mkInserter "users" ["id"] [dyn 7%Z] ["id"])
             {[ "id" := dyn 0%Z ]} inil).
  - reflexivity.
  - apply (f_equal snd) in Hrun. simpl in Hrun. subst evs.
    apply (list_elem_of_lookup_2 _ 3). reflexivity.
Defined.

Lemma Insert_detection_fails_witness :
  fst (fst (Fixtures.scripted_Insert
              (Fixtures.Script ["id"] 1 true false false false)
              [("id", dyn 7%Z)] (Fixtures.users, 0)))
  = Done (Plain inil, dyn "invalid object name") /\
  List.filter insert_event
    (snd (Fixtures.scripted_Insert
            (Fixtures.Script ["id"] 1 true false false false)
            [("id", dyn 7%Z)] (Fixtures.users, 0))) = [].
Proof.
  destruct (Fixtures.scripted_Insert
              (Fixtures.Script ["id"] 1 true false false false)
              [("id", dyn 7%Z)] (Fixtures.users, 0))
    as [[out w'] evs] eqn:Hrun.
  simpl.
  destruct (Insert_detection_fails _ _ _ _ _ _ _ _ _ _ _ _ _
              count_identity_columns "users" 1%Z
              (dyn "invalid object name") "invalid object name" Hrun)
    as (Hout & _ & Hins & _).
  - apply (f_equal snd) in Hrun. simpl in Hrun. subst evs.
    apply (list_elem_of_lookup_2 _ 1). reflexivity.
  - left. reflexivity.
  - split; assumption.
Defined.

Lemma Insert_toggle_fails_witness :
  fst (fst (Fixtures.scripted_Insert
              (Fixtures.Script ["id"] 1 false true false false)
              [("id", dyn 7%Z)] (Fixtures.users, 0)))
  = Done (Plain inil, dyn "cannot set IDENTITY_INSERT").
Proof.
  destruct (Fixtures.scripted_Insert
              (Fixtures.Script ["id"] 1 false true false false)
              [("id", dyn 7%Z)] (Fixtures.users, 0))
    as [[out w'] evs] eqn:Hrun.
  simpl.
  apply (Insert_toggle_fails _ _ _ _ _ _ _ _ _ _ _ _ _
           "cannot set IDENTITY_INSERT" Hrun).
  apply (f_equal snd) in Hrun. simpl in Hrun. subst evs.
  apply (list_elem_of_lookup_2 _ 2). reflexivity.
Defined.

Lemma Insert_uses_cached_answer_witness :
  List.filter query_event
    (snd (Fixtures.fake_Insert ["id"] 1 false [("id", dyn 7%Z)]
            (mkTable "users" (Some false), 0))) = [] /\
  List.filter toggle_event
    (snd (Fixtures.fake_Insert ["id"] 1 false [("id", dyn 7%Z)]
            (mkTable "users" (Some false), 0))) = [].
Proof.
  destruct (Fixtures.fake_Insert ["id"] 1 false [("id", dyn 7%Z)]
              (mkTable "users" (Some false), 0))
    as [[out w'] evs] eqn:Hrun.
  destruct (Insert_uses_cached_answer _ _ _ _ _ _ _ _ _ _ _ _ _ false
              Hrun eq_refl) as (_ & _ & Hq & Ht).
  split; [exact Hq | exact (Ht eq_refl)].
Defined.

Lemma Insert_remembers_detection_witness :
  hasIdentityColumn
    (fst (snd (fst (Fixtures.fake_Insert ["id"] 0 false [("id", dyn 7%Z)]
                      (Fixtures.users, 0)))))
  = Some false.
Proof.
  destruct (Fixtures.fake_Insert ["id"] 0 false [("id", dyn 7%Z)]
              (Fixtures.users, 0))
    as [[out w'] evs] eqn:Hrun.
  simpl.
  apply (Insert_remembers_detection _ _ _ _ _ _ _ _ _ _ _ _ _
           count_identity_columns "users" 0%Z 0%Z Hrun).
  - apply (f_equal snd) in Hrun. simpl in Hrun. subst evs.
    apply (list_elem_of_lookup_2 _ 1). reflexivity.
  - reflexivity.
Defined.

Lemma Insert_statement_witness :
  exists km err,
    List.filter insert_event
      (snd (Fixtures.fake_Insert ["id"] 1 false [("id", dyn 7%Z)]
              (Fixtures.users, 0)))
    = [EvInsertOne (mkInserter "users" ["id"] [dyn 7%Z] ["id"]) km err].
Proof.
  destruct (Fixtures.fake_Insert ["id"] 1 false [("id", dyn 7%Z)]
              (Fixtures.users, 0))
    as [[out w'] evs] eqn:Hrun.
  destruct (Insert_statement Fixtures.fake_Map
              (Fixtures.fake_PrimaryKeys ["id"]) (Fixtures.fake_QueryRow 1)
              Fixtures.fake_Scan Fixtures.fake_Exec
              (Fixtures.fake_inserter_Exec false)
              (Fixtures.fake_inserter_One false)
              [("id", dyn 7%Z)] Fixtures.users 0 ["id"] [dyn 7%Z] ["id"] 0
              out w' evs eq_refl eq_refl Hrun)
    as [H | [(err & H & _) | (km & err & _ & H)]].
  - apply (f_equal snd) in Hrun. simpl in Hrun. subst evs. discriminate H.
  - discriminate H.
  - exists km, err. exact H.
Defined.

Lemma Insert_panics_witness :
  fst (fst (Fixtures.short_Insert ["id"] [("id", dyn 7%Z)]
              (Fixtures.users, 0)))
  = Panic.
Proof.
  destruct (Fixtures.short_Insert ["id"] [("id", dyn 7%Z)]
              (Fixtures.users, 0))
    as [[out w'] evs] eqn:Hrun.
  simpl.
  apply (proj1 (Insert_panics Fixtures.short_Map
                  (Fixtures.fake_PrimaryKeys ["id"]) (Fixtures.fake_QueryRow 0)
                  Fixtures.fake_Scan Fixtures.fake_Exec
                  (Fixtures.fake_inserter_Exec false)
                  (Fixtures.fake_inserter_One false)
                  [("id", dyn 7%Z)] Fixtures.users 0 ["id"] [] ["id"] 0
                  out w' evs eq_refl eq_refl Hrun)).
  exists 0, "id". split; [reflexivity |].
  split; [apply list_elem_of_here | reflexivity].
Defined.

Lemma second_Insert_reuses_detection_witness :
  List.filter query_event
    (snd (Fixtures.fake_Insert ["id"] 1 false [("id", dyn 8%Z)]
            (snd (fst (Fixtures.fake_Insert ["id"] 1 false
                         [("id", dyn 7%Z)] (newTable "users", 0))))))
  = [].
Proof.
  destruct (Fixtures.fake_Insert ["id"] 1 false [("id", dyn 7%Z)]
              (newTable "users", 0))
    as [[out1 [t1 s1]] evs1] eqn:Hrun1.
  simpl.
  destruct (Fixtures.fake_Insert ["id"] 1 false [("id", dyn 8%Z)] (t1, s1))
    as [[out2 w2] evs2] eqn:Hrun2.
  simpl.
  assert (Hin : EvQueryRow count_identity_columns "users" 1%Z inil ∈ evs1).
  { apply (f_equal snd) in Hrun1. simpl in Hrun1. subst evs1.
    apply (list_elem_of_lookup_2 _ 1). reflexivity. }
  unfold Fixtures.fake_Insert in Hrun1, Hrun2.
  exact (proj1 (second_Insert_reuses_detection _ _ _ _ _ _ _
                  "users" _ _ _ _ _ _ _ _ _ _ 1%Z _ _ _
                  Hrun1 Hin eq_refl Hrun2)).
Defined.

End MssqlFacts.
